(** * Lockstep netcode of the Pong web client

    A shallow embedding of [clients/web/src/lockstep.ts]: the wire codec
    [WireMsg] and the [Lockstep] engine, over the [CoreAdapter] and
    [Transport] interfaces the engine is written against; then the PeerJS
    transport [PeerTransport] behind that interface and the peer identifier
    helpers [PeerIdUtils] with their caller [validateScannedPeerId].

    Conventions.
    - A JavaScript [number] is an integer [Z]; NaN, infinities and
      fractions are outside the model, and so is the loss of precision of
      doubles beyond 2^53.
    - A [Uint8Array] is a [list byte]; an [ArrayBuffer] behind a [DataView]
      is the same list.
    - A [Map<number, Input>] is a [gmap Z Input].
    - A method that may throw returns a [Completion]; a method of the
      stateful [Lockstep] object is a function from the object's state to a
      completion and the state after the call. *)

From Stdlib Require Import ZArith Lia List String.
From Stdlib.Strings Require Import Byte.
From stdpp Require Import base tactics option numbers list gmap strings pretty.

Local Open Scope Z_scope.

(** ** Completions: normal return or a thrown [Error] *)

Inductive JsError : Type :=
  | Error (message : string)
  | RangeError (message : string).

Inductive Completion (A : Type) : Type :=
  | Return (value : A)
  | Throw (error : JsError).

Arguments Return {A} value.
Arguments Throw {A} error.

Global Instance Completion_ret : MRet Completion := fun A v => Return v.

Global Instance Completion_bind : MBind Completion := fun A B k c =>
  match c with
  | Return v => k v
  | Throw e => Throw e
  end.

Definition returns {A} (c : Completion A) : Prop := exists v, c = Return v.
Definition throws {A} (c : Completion A) : Prop := exists e, c = Throw e.

(** ** Bytes and typed-array accessors *)

Definition byte_to_Z (b : byte) : Z := Z.of_N (Byte.to_N b).

(** The low eight bits of a number, as stored by [setUint8] and [setInt8]
    (both reduce modulo 2^8; they differ only in how the byte is read). *)
Definition byte_of_Z (v : Z) : byte :=
  match Byte.of_N (Z.to_N (v mod 256)) with
  | Some b => b
  | None => x00
  end.

Definition ArrayBuffer_new (n : nat) : list byte := replicate n x00.

(** [DataView] setters.  Every call site in the codec writes at a literal
    offset inside a buffer it has just allocated with the matching literal
    size, so the out-of-bounds [RangeError] of a setter cannot occur there
    and the setters are plain list updates. *)
Definition setUint8 (buf : list byte) (off : nat) (v : Z) : list byte :=
  <[off := byte_of_Z v]> buf.

Definition setInt8 (buf : list byte) (off : nat) (v : Z) : list byte :=
  <[off := byte_of_Z v]> buf.

(** [setUint32(off, v, true)]: [v] modulo 2^32, least significant byte first. *)
Definition setUint32_le (buf : list byte) (off : nat) (v : Z) : list byte :=
  let u := v mod 2 ^ 32 in
  <[(off + 3)%nat := byte_of_Z (Z.shiftr u 24)]>
    (<[(off + 2)%nat := byte_of_Z (Z.shiftr u 16)]>
      (<[(off + 1)%nat := byte_of_Z (Z.shiftr u 8)]>
        (<[off := byte_of_Z u]> buf))).

(** [new Uint8Array(buffer, off).set(src)]: copy [src] into the buffer from
    offset [off] on. *)
Definition Uint8Array_set (buf : list byte) (off : nat) (src : list byte) : list byte :=
  take off buf ++ src ++ drop (off + length src) buf.

(** The conversions of ECMAScript a typed-array setter applies to an
    integral number: reduction modulo 2^32 or 2^8, and for [Int8] the
    representative in [-128, 127]. *)
Definition ToUint32 (v : Z) : Z := v mod 2 ^ 32.
Definition ToUint8 (v : Z) : Z := v mod 2 ^ 8.
Definition ToInt8 (v : Z) : Z := (v + 2 ^ 7) mod 2 ^ 8 - 2 ^ 7.

(** A byte read as a two's-complement [i8], and four bytes read as a
    little-endian [u32]. *)
Definition int8_of_byte (x : byte) : Z :=
  if 128 <=? byte_to_Z x then byte_to_Z x - 256 else byte_to_Z x.

Definition uint32_of_bytes (b0 b1 b2 b3 : byte) : Z :=
  byte_to_Z b0 + Z.shiftl (byte_to_Z b1) 8
  + Z.shiftl (byte_to_Z b2) 16 + Z.shiftl (byte_to_Z b3) 24.

(** [DataView] getters throw a [RangeError] outside the view. *)
Definition getUint8 (buf : list byte) (off : nat) : Completion Z :=
  match buf !! off with
  | Some b => Return (byte_to_Z b)
  | None => Throw (RangeError "Offset is outside the bounds of the DataView")
  end.

Definition getInt8 (buf : list byte) (off : nat) : Completion Z :=
  match buf !! off with
  | Some b => Return (int8_of_byte b)
  | None => Throw (RangeError "Offset is outside the bounds of the DataView")
  end.

Definition getUint32_le (buf : list byte) (off : nat) : Completion Z :=
  match buf !! off, buf !! (off + 1)%nat, buf !! (off + 2)%nat, buf !! (off + 3)%nat with
  | Some b0, Some b1, Some b2, Some b3 => Return (uint32_of_bytes b0 b1 b2 b3)
  | _, _, _, _ => Throw (RangeError "Offset is outside the bounds of the DataView")
  end.

(** ** Data model ([types.ts]) *)

Inductive Side : Type := Left | Right.

Global Instance Side_eq_dec : EqDecision Side.
Proof. solve_decision. Defined.

Record Input : Type := mkInput { axis_y : Z; buttons : Z }.

Record InputPair : Type := mkInputPair { tick : Z; a : Input; b : Input }.

(** An input, and a pair, as they come out of the wire: every field
    converted as the setter of its slot converts it. *)
Definition wire_input (i : Input) : Input :=
  {| axis_y := ToInt8 (axis_y i); buttons := ToUint8 (buttons i) |}.

Definition wire_pair (p : InputPair) : InputPair :=
  {| tick := ToUint32 (tick p); a := wire_input (a p); b := wire_input (b p) |}.

(** An input whose fields fit their slots: an [i8] axis and a [u8] button
    byte. *)
Definition fits_wire (i : Input) : Prop :=
  -128 <= axis_y i <= 127 /\ 0 <= buttons i <= 255.

(** ** Wire codec ([class WireMsg]) *)

Module WireMsg.

(** What [decode] returns: an object tagged by its [type] field. *)
Inductive t : Type :=
  | input_pair (inputPair : InputPair)
  | snapshot (data : list byte)
  | ping (timestamp : Z).

Definition WIRE_MSG_INPUT_PAIR : Z := 0x01.
Definition WIRE_MSG_SNAPSHOT : Z := 0x02.
Definition WIRE_MSG_PING : Z := 0x03.

Definition encodeInputPair (inputPair : InputPair) : list byte :=
  let buffer := ArrayBuffer_new 9 in
  let buffer := setUint8 buffer 0 WIRE_MSG_INPUT_PAIR in
  let buffer := setUint32_le buffer 1 (tick inputPair) in
  let buffer := setInt8 buffer 5 (axis_y (a inputPair)) in
  let buffer := setUint8 buffer 6 (buttons (a inputPair)) in
  let buffer := setInt8 buffer 7 (axis_y (b inputPair)) in
  let buffer := setUint8 buffer 8 (buttons (b inputPair)) in
  buffer.

Definition encodeSnapshot (snapshotBytes : list byte) : list byte :=
  let buffer := ArrayBuffer_new (1 + length snapshotBytes) in
  let buffer := setUint8 buffer 0 WIRE_MSG_SNAPSHOT in
  let buffer := Uint8Array_set buffer 1 snapshotBytes in
  buffer.

Definition encodePing (timestamp : Z) : list byte :=
  let buffer := ArrayBuffer_new 5 in
  let buffer := setUint8 buffer 0 WIRE_MSG_PING in
  let buffer := setUint32_le buffer 1 timestamp in
  buffer.

Definition decode (bytes : list byte) : Completion t :=
  if (length bytes =? 0)%nat then Throw (Error "Empty message")
  else
    msgType ← getUint8 bytes 0;
    if msgType =? WIRE_MSG_INPUT_PAIR then
      if negb (length bytes =? 9)%nat then
        Throw (Error "Invalid InputPair message length")
      else
        t ← getUint32_le bytes 1;
        a_axis ← getInt8 bytes 5;
        a_btn ← getUint8 bytes 6;
        b_axis ← getInt8 bytes 7;
        b_btn ← getUint8 bytes 8;
        Return (input_pair
                  {| tick := t;
                     a := {| axis_y := a_axis; buttons := a_btn |};
                     b := {| axis_y := b_axis; buttons := b_btn |} |})
    else if msgType =? WIRE_MSG_SNAPSHOT then
      Return (snapshot (drop 1 bytes))
    else if msgType =? WIRE_MSG_PING then
      if negb (length bytes =? 5)%nat then
        Throw (Error "Invalid Ping message length")
      else
        t ← getUint32_le bytes 1;
        Return (ping t)
    else
      Throw (Error ("Unknown message type: " +:+ pretty msgType)).

(** A buffer as the wire format lays it out: one of the three tags first,
    and the exact total length where the tag fixes one. *)
Definition well_formed (bytes : list byte) : bool :=
  match bytes with
  | [] => false
  | tag :: _ =>
      if byte_to_Z tag =? WIRE_MSG_INPUT_PAIR then (length bytes =? 9)%nat
      else if byte_to_Z tag =? WIRE_MSG_SNAPSHOT then true
      else if byte_to_Z tag =? WIRE_MSG_PING then (length bytes =? 5)%nat
      else false
  end.

End WireMsg.

(** ** Collaborator interfaces *)

(** [interface CoreAdapter], over the adapter's state [C] and the type [E]
    of a game event.  The methods are taken at their declared signatures:
    each returns normally.  [step] returns [None] where the JavaScript
    value is [undefined] (or otherwise falsy) and [Some e] for an event
    object. *)
Class CoreAdapter (C E : Type) : Type := {
  step : C -> Z -> Z -> Z -> Z -> Z -> option E * C;
  viewJson : C -> string;
  snapshotBytes : C -> list byte;
  restoreBytes : C -> list byte -> C;
  getCurrentTick : C -> Z
}.

(** [interface Transport], over the transport's state [T].  [send] may
    throw (as [PeerTransport.send] does when the channel is not connected).
    [onMessage] registers the receive callback; delivery of a message is the
    call of [Lockstep.onNetMessage] with its bytes. *)
Class Transport (T : Type) : Type := {
  send : T -> list byte -> Completion () * T;
  isOpen : T -> bool;
  status : T -> string
}.

Inductive LockstepEvent (E : Type) : Type :=
  | game_advanced (tick : Z) (events : list E)
  | peer_disconnected
  | pong_received (roundTripMs : Z)
  | snapshot_received (tick : Z).

Arguments game_advanced {E} tick events.
Arguments peer_disconnected {E}.
Arguments pong_received {E} roundTripMs.
Arguments snapshot_received {E} tick.

(** ** The lockstep engine ([class Lockstep]) *)

Module Lockstep.

Section WithCollaborators.

Context {C E T GameView : Type} `{!CoreAdapter C E} `{!Transport T}.

(** [JSON.parse] at the type of a game view; the JSON a core hands out is
    taken to parse. *)
Context (JSON_parse : string -> GameView).

(** The fields of a [Lockstep] object.  [core] and [transport] are the
    collaborator objects it holds; [console] is the list of lines written
    with [console.error], newest first (the console is global; it is kept
    here so that a method is a function of one state). *)
Record t : Type := mk {
  core : C;
  transport : T;
  currentTick : Z;
  localSide : Side;
  isRunning : bool;
  localInputBuffer : gmap Z Input;
  remoteInputBuffer : gmap Z Input;
  console : list string
}.

Definition set_core (f : C -> C) (s : t) : t :=
  mk (f (core s)) (transport s) (currentTick s) (localSide s) (isRunning s)
     (localInputBuffer s) (remoteInputBuffer s) (console s).
Definition set_transport (f : T -> T) (s : t) : t :=
  mk (core s) (f (transport s)) (currentTick s) (localSide s) (isRunning s)
     (localInputBuffer s) (remoteInputBuffer s) (console s).
Definition set_currentTick (f : Z -> Z) (s : t) : t :=
  mk (core s) (transport s) (f (currentTick s)) (localSide s) (isRunning s)
     (localInputBuffer s) (remoteInputBuffer s) (console s).
Definition set_isRunning (f : bool -> bool) (s : t) : t :=
  mk (core s) (transport s) (currentTick s) (localSide s) (f (isRunning s))
     (localInputBuffer s) (remoteInputBuffer s) (console s).
Definition set_localInputBuffer (f : gmap Z Input -> gmap Z Input) (s : t) : t :=
  mk (core s) (transport s) (currentTick s) (localSide s) (isRunning s)
     (f (localInputBuffer s)) (remoteInputBuffer s) (console s).
Definition set_remoteInputBuffer (f : gmap Z Input -> gmap Z Input) (s : t) : t :=
  mk (core s) (transport s) (currentTick s) (localSide s) (isRunning s)
     (localInputBuffer s) (f (remoteInputBuffer s)) (console s).
Definition set_console (f : list string -> list string) (s : t) : t :=
  mk (core s) (transport s) (currentTick s) (localSide s) (isRunning s)
     (localInputBuffer s) (remoteInputBuffer s) (f (console s)).

(** *** Methods as state transformers that may throw *)

Definition M (A : Type) : Type := t -> Completion A * t.

Local Instance M_ret : MRet M := fun A v s => (Return v, s).

Local Instance M_bind : MBind M := fun A B k m s =>
  match m s with
  | (Return v, s') => k v s'
  | (Throw e, s') => (Throw e, s')
  end.

Definition throw {A} (e : JsError) : M A := fun s => (Throw e, s).

(** [try { body } catch (error) { handler }] *)
Definition try_catch {A} (body : M A) (handler : JsError -> M A) : M A := fun s =>
  match body s with
  | (Return v, s') => (Return v, s')
  | (Throw e, s') => handler e s'
  end.

Definition gets {A} (f : t -> A) : M A := fun s => (Return (f s), s).
Definition modify (f : t -> t) : M () := fun s => (Return (), f s).
Definition liftC {A} (c : Completion A) : M A := fun s => (c, s).

Definition error_message (e : JsError) : string :=
  match e with
  | Error m => "Error: " +:+ m
  | RangeError m => "RangeError: " +:+ m
  end.

Definition console_error (label : string) (e : JsError) : M () :=
  modify (set_console (cons (label +:+ " " +:+ error_message e))).

(** Calls on the collaborators. *)
Definition core_step (tk aAxis aBtn bAxis bBtn : Z) : M (option E) := fun s =>
  let '(ev, c') := step (core s) tk aAxis aBtn bAxis bBtn in
  (Return ev, set_core (fun _ => c') s).

Definition core_viewJson : M string := gets (fun s => viewJson (core s)).
Definition core_snapshotBytes : M (list byte) := gets (fun s => snapshotBytes (core s)).
Definition core_restoreBytes (bytes : list byte) : M () :=
  modify (set_core (fun c => restoreBytes c bytes)).
Definition core_getCurrentTick : M Z := gets (fun s => getCurrentTick (core s)).

Definition transport_send (bytes : list byte) : M () := fun s =>
  let '(r, t') := send (transport s) bytes in
  (r, set_transport (fun _ => t') s).

Definition transport_isOpen : M bool := gets (fun s => isOpen (transport s)).

(** *** Constructor and methods *)

(** [new Lockstep(gameAdapter, transport, _tickHz, localSide, _isTimekeeper)];
    the two underscored parameters are unused. *)
Definition new (gameAdapter : C) (tr : T) (_tickHz : Z) (side : Side)
    (_isTimekeeper : bool) : t :=
  {| core := gameAdapter;
     transport := tr;
     currentTick := getCurrentTick gameAdapter;
     localSide := side;
     isRunning := false;
     localInputBuffer := ∅;
     remoteInputBuffer := ∅;
     console := [] |}.

Definition start : M () :=
  open ← transport_isOpen;
  if negb open then throw (Error "Transport not connected")
  else
    modify (set_isRunning (fun _ => true));;
    tk ← core_getCurrentTick;
    modify (set_currentTick (fun _ => tk));;
    modify (set_localInputBuffer (fun _ => ∅));;
    modify (set_remoteInputBuffer (fun _ => ∅)).

Definition stop : M () :=
  modify (set_isRunning (fun _ => false));;
  modify (set_localInputBuffer (fun _ => ∅));;
  modify (set_remoteInputBuffer (fun _ => ∅)).

Definition onLocalInput (axisY btns : Z) : M () :=
  running ← gets isRunning;
  if negb running then throw (Error "Lockstep not running")
  else
    let input := {| axis_y := axisY; buttons := btns |} in
    cur ← gets currentTick;
    modify (set_localInputBuffer (insert cur input));;
    let remoteInput := {| axis_y := 0; buttons := 0 |} in
    side ← gets localSide;
    let inputPair :=
      {| tick := cur;
         a := if decide (side = Left) then input else remoteInput;
         b := if decide (side = Left) then remoteInput else input |} in
    let wireMsg := WireMsg.encodeInputPair inputPair in
    try_catch (transport_send wireMsg)
              (fun error => console_error "Failed to send input:" error).

Definition onNetMessage (bytes : list byte) : M (list (LockstepEvent E)) :=
  running ← gets isRunning;
  if negb running then mret []
  else
    try_catch
      (wireMsg ← liftC (WireMsg.decode bytes);
       events ←
         match wireMsg with
         | WireMsg.input_pair inputPair =>
             side ← gets localSide;
             let remoteInput :=
               if decide (side = Left) then b inputPair else a inputPair in
             modify (set_remoteInputBuffer (insert (tick inputPair) remoteInput));;
             mret []
         | WireMsg.snapshot data =>
             core_restoreBytes data;;
             tk ← core_getCurrentTick;
             modify (set_currentTick (fun _ => tk));;
             cur ← gets currentTick;
             mret [snapshot_received cur]
         | WireMsg.ping timestamp =>
             let pong := WireMsg.encodePing timestamp in
             try_catch (transport_send pong)
                       (fun error => console_error "Failed to send pong:" error);;
             mret []
         end;
       mret events)
      (fun error =>
         console_error "Failed to process network message:" error;;
         mret []).

Record TickResult : Type := mkTickResult {
  view : GameView;
  events : list (LockstepEvent E)
}.

(** [localInput && remoteInput]: an entry of either buffer is an object, so
    each conjunct is truthy exactly when [get] found an entry. *)
Definition tick : M TickResult :=
  running ← gets isRunning;
  if negb running then
    json ← core_viewJson;
    mret {| view := JSON_parse json; events := [] |}
  else
    cur ← gets currentTick;
    localInput ← gets (fun s => localInputBuffer s !! cur);
    remoteInput ← gets (fun s => remoteInputBuffer s !! cur);
    evs ←
      match localInput, remoteInput with
      | Some localInput, Some remoteInput =>
          side ← gets localSide;
          let aInput := if decide (side = Left) then localInput else remoteInput in
          let bInput := if decide (side = Left) then remoteInput else localInput in
          gameEvent ← core_step cur (axis_y aInput) (buttons aInput)
                                    (axis_y bInput) (buttons bInput);
          modify (set_localInputBuffer (delete cur));;
          modify (set_remoteInputBuffer (delete cur));;
          modify (set_currentTick (fun n => n + 1));;
          match gameEvent with
          | Some ev =>
              now ← gets currentTick;
              mret [game_advanced (now - 1) [ev]]
          | None => mret []
          end
      | _, _ => mret []
      end;
    json ← core_viewJson;
    mret {| view := JSON_parse json; events := evs |}.

Definition requestSnapshot : M () :=
  running ← gets isRunning;
  if negb running then throw (Error "Lockstep not running")
  else
    bytes ← core_snapshotBytes;
    let wireMsg := WireMsg.encodeSnapshot bytes in
    try_catch (transport_send wireMsg)
              (fun error => console_error "Failed to send snapshot:" error).

(** [ping] reads the clock; [now] is the value of [Date.now()]. *)
Definition ping (now : Z) : M () :=
  running ← gets isRunning;
  if negb running then throw (Error "Lockstep not running")
  else
    let msg := WireMsg.encodePing now in
    try_catch (transport_send msg)
              (fun error => console_error "Failed to send ping:" error).

Definition isWaitingForRemote (s : t) : bool :=
  if negb (isRunning s) then false
  else bool_decide (is_Some (localInputBuffer s !! currentTick s))
       && negb (bool_decide (is_Some (remoteInputBuffer s !! currentTick s))).

Definition transportStatus : M string := gets (fun s => status (transport s)).

Definition isConnected : M bool := transport_isOpen.

(** [getBufferInfo()]: the [size] of each buffer. *)
Record BufferInfo : Type := mkBufferInfo { localCount : nat; remoteCount : nat }.

Definition getBufferInfo (s : t) : BufferInfo :=
  {| localCount := size (localInputBuffer s);
     remoteCount := size (remoteInputBuffer s) |}.

(** [n] drive calls in a row. *)
Fixpoint ticks (n : nat) (s : t) : t :=
  match n with
  | O => s
  | S n' => ticks n' (tick s).2
  end.

(** The [step] call of [tick] at cursor [tk] on core [c], with the inputs
    two buffers hold for [tk]; no call where either has none. *)
Definition step_with (side : Side) (l r : gmap Z Input) (c : C) (tk : Z) : C :=
  match l !! tk, r !! tk with
  | Some li, Some ri =>
      let aInput := if decide (side = Left) then li else ri in
      let bInput := if decide (side = Left) then ri else li in
      (step c tk (axis_y aInput) (buttons aInput) (axis_y bInput) (buttons bInput)).2
  | _, _ => c
  end.

(** The field of a pair that carries the peer's input, for an engine
    playing [side]: [b] for the left player, [a] for the right. *)
Definition remote_field (side : Side) (p : InputPair) : Input :=
  match side with
  | Left => b p
  | Right => a p
  end.

Definition local_field (side : Side) (p : InputPair) : Input :=
  match side with
  | Left => a p
  | Right => b p
  end.

(** The states of a [Lockstep] object: the constructor's, and those after
    any call of a method or any delivery of bytes from the transport.  The
    two collaborators are objects of the application and may change between
    calls (the channel closes, the core is reset). *)
Inductive reachable : t -> Prop :=
  | reach_new gameAdapter tr tickHz side isTimekeeper :
      reachable (new gameAdapter tr tickHz side isTimekeeper)
  | reach_start s : reachable s -> reachable (start s).2
  | reach_stop s : reachable s -> reachable (stop s).2
  | reach_onLocalInput s axisY btns :
      reachable s -> reachable (onLocalInput axisY btns s).2
  | reach_onNetMessage s bytes :
      reachable s -> reachable (onNetMessage bytes s).2
  | reach_tick s : reachable s -> reachable (tick s).2
  | reach_requestSnapshot s : reachable s -> reachable (requestSnapshot s).2
  | reach_ping s now : reachable s -> reachable (ping now s).2
  | reach_collaborators s c' tr' :
      reachable s ->
      reachable (set_core (fun _ => c') (set_transport (fun _ => tr') s)).

(** Every entry of the remote buffer is what the codec can have read: a
    [u32] tick and an input that fits its wire slots. *)
Definition remote_in_wire_range (s : t) : Prop :=
  forall tk i, remoteInputBuffer s !! tk = Some i ->
    0 <= tk < 2 ^ 32 /\ fits_wire i.

(** What every method but [tick], [start] and the delivery of a snapshot
    leaves alone. *)
Definition same_simulation (s s' : t) : Prop :=
  core s' = core s /\ currentTick s' = currentTick s
  /\ localSide s' = localSide s /\ isRunning s' = isRunning s.

(** While the engine is stopped both buffers are empty: [onLocalInput] and
    [onNetMessage] write only while it runs, and [stop] clears. *)
Definition buffers_empty_when_stopped (s : t) : Prop :=
  isRunning s = false -> localInputBuffer s = ∅ /\ remoteInputBuffer s = ∅.

End WithCollaborators.

Arguments t : clear implicits.
Arguments M : clear implicits.
Arguments TickResult : clear implicits.

End Lockstep.

(** ** Test doubles *)

(** A core that records the [step] calls it receives, oldest first. *)
Record RecordingCore : Type := mkRecordingCore {
  recorded : list InputPair;
  core_tick : Z
}.

Global Instance RecordingCore_adapter : CoreAdapter RecordingCore Z := {|
  step c tk aAxis aBtn bAxis bBtn :=
    (if Z.odd aBtn && Z.odd bBtn then Some tk else None,
     {| recorded := recorded c ++ [mkInputPair tk (mkInput aAxis aBtn) (mkInput bAxis bBtn)];
        core_tick := core_tick c + 1 |});
  viewJson c := pretty (core_tick c);
  snapshotBytes c := [byte_of_Z (core_tick c)];
  restoreBytes c bytes :=
    {| recorded := recorded c;
       core_tick := match bytes with x :: _ => byte_to_Z x | [] => 0 end |};
  getCurrentTick c := core_tick c
|}.

(** A transport that keeps what was sent, oldest first, and throws once
    closed. *)
Record LoopbackTransport : Type := mkLoopbackTransport {
  connected : bool;
  outbox : list (list byte)
}.

Global Instance LoopbackTransport_transport : Transport LoopbackTransport := {|
  send tr bytes :=
    if connected tr
    then (Return (), {| connected := true; outbox := outbox tr ++ [bytes] |})
    else (Throw (Error "Transport not connected"), tr);
  isOpen tr := connected tr;
  status tr := if connected tr then "Connected" else "Closed"
|}.

(** A left-side engine on the doubles, started, and the same after
    submitting a local input and receiving the peer's for tick 0. *)
Definition demo_started : Lockstep.t RecordingCore LoopbackTransport :=
  (Lockstep.start
     (Lockstep.new (mkRecordingCore [] 0) (mkLoopbackTransport true []) 60 Left true)).2.

Definition demo_ready : Lockstep.t RecordingCore LoopbackTransport :=
  (Lockstep.onNetMessage
     (WireMsg.encodeInputPair (mkInputPair 0 (mkInput 0 0) (mkInput 3 1)))
     (Lockstep.onLocalInput 5 1 demo_started).2).2.

(** The peer of [demo_started]: a right-side engine started at tick 0. *)
Definition demo_started_right : Lockstep.t RecordingCore LoopbackTransport :=
  (Lockstep.start
     (Lockstep.new (mkRecordingCore [] 0) (mkLoopbackTransport true []) 60 Right false)).2.

(** A right-side engine brought to tick 10 with a backlog for ticks 10 and
    11: it starts at tick 11 and submits an input, a snapshot takes it back
    to tick 10, it submits again, and the peer's inputs for ticks 11, 12 and
    10 arrive in that order. *)
Definition demo_backlog : Lockstep.t RecordingCore LoopbackTransport :=
  (Lockstep.onNetMessage
     (WireMsg.encodeInputPair (mkInputPair 10 (mkInput 3 0) (mkInput 0 0)))
     (Lockstep.onNetMessage
        (WireMsg.encodeInputPair (mkInputPair 12 (mkInput 5 0) (mkInput 0 0)))
        (Lockstep.onNetMessage
           (WireMsg.encodeInputPair (mkInputPair 11 (mkInput 4 0) (mkInput 0 0)))
           (Lockstep.onLocalInput 2 0
              (Lockstep.onNetMessage [x02; x0a]
                 (Lockstep.onLocalInput 1 0
                    (Lockstep.start
                       (Lockstep.new (mkRecordingCore [] 11)
                          (mkLoopbackTransport true []) 60 Right false)).2).2).2).2).2).2).2.

(** ** The PeerJS transport ([class PeerTransport]) *)

(** A [DataConnection] of PeerJS as [PeerTransport] uses it once it is set
    up: [send], which may throw, and the [open] property. *)
Class DataConnection (D : Type) : Type := {
  conn_send : D -> list byte -> Completion () * D;
  conn_open : D -> bool
}.

Module PeerTransport.

Section WithConnection.

Context {D P CB : Type} `{!DataConnection D}.

(** The fields the [Transport] methods and the connection handlers read or
    write.  [peer] is the PeerJS [Peer] and [messageCallback] the function
    registered with [onMessage]; both are only stored and dropped here.
    The calls [connection.close()] and [peer.destroy()] of [close] act on
    objects the transport lets go of in the same breath. *)
Record t : Type := mk {
  peer : option P;
  connection : option D;
  messageCallback : option CB;
  isConnected : bool;
  statusMessage : string
}.

Definition send (tr : t) (bytes : list byte) : Completion () * t :=
  match connection tr with
  | Some conn =>
      if negb (isConnected tr) then (Throw (Error "Transport not connected"), tr)
      else
        let '(r, conn') := conn_send conn bytes in
        let tr' := mk (peer tr) (Some conn') (messageCallback tr)
                      (isConnected tr) (statusMessage tr) in
        match r with
        | Return _ => (Return (), tr')
        | Throw error =>
            (Throw (Error ("Failed to send message: "
                           +:+ Lockstep.error_message error)), tr')
        end
  | None => (Throw (Error "Transport not connected"), tr)
  end.

Definition onMessage (callback : CB) (tr : t) : t :=
  mk (peer tr) (connection tr) (Some callback) (isConnected tr) (statusMessage tr).

(** [this.isConnected && this.connection?.open === true] *)
Definition isOpen (tr : t) : bool :=
  isConnected tr
  && match connection tr with
     | Some conn => conn_open conn
     | None => false
     end.

Definition close (tr : t) : t :=
  mk None None (messageCallback tr) false "Closed".

Definition status (tr : t) : string := statusMessage tr.

(** The handlers [setupConnectionHandlers] puts on a connection, for the
    events [open], [close] and [error] ([message] is [error.message]). *)
Definition on_open (tr : t) : t :=
  mk (peer tr) (connection tr) (messageCallback tr) true "Connected".

Definition on_close (tr : t) : t :=
  mk (peer tr) (connection tr) (messageCallback tr) false "Connection closed".

Definition on_error (message : string) (tr : t) : t :=
  mk (peer tr) (connection tr) (messageCallback tr) false
     ("Connection error: " +:+ message).

End WithConnection.

Arguments t : clear implicits.

End PeerTransport.

Global Instance PeerTransport_transport {D P CB : Type} `{!DataConnection D} :
  Transport (PeerTransport.t D P CB) := {|
  send := PeerTransport.send;
  isOpen := PeerTransport.isOpen;
  status := PeerTransport.status
|}.

(** A connection double: it keeps what it was given, oldest first, and
    throws once it is no longer open. *)
Record LoopbackConnection : Type := mkLoopbackConnection {
  conn_is_open : bool;
  conn_sent : list (list byte)
}.

Global Instance LoopbackConnection_connection : DataConnection LoopbackConnection := {|
  conn_send conn bytes :=
    if conn_is_open conn
    then (Return (), {| conn_is_open := true; conn_sent := conn_sent conn ++ [bytes] |})
    else (Throw (Error "Connection is not open"), conn);
  conn_open conn := conn_is_open conn
|}.

(** A connected transport on the connection double, and an engine started
    on it whose transport was closed afterwards. *)
Definition demo_transport : PeerTransport.t LoopbackConnection () () :=
  PeerTransport.mk (Some ()) (Some (mkLoopbackConnection true [])) None true "Connected".

Definition demo_cut_off : Lockstep.t RecordingCore (PeerTransport.t LoopbackConnection () ()) :=
  Lockstep.set_transport PeerTransport.close
    (Lockstep.start (Lockstep.new (mkRecordingCore [] 0) demo_transport 60 Left true)).2.

(** ** Peer identifiers ([class PeerIdUtils]) *)

(** A string is the list of its UTF-16 code units; the type [ascii] holds
    the code units below 256, so the strings modelled are those of Latin-1
    characters, the range in which [toLowerCase], the class [\s] and the
    dot of a regular expression are written out below. *)
From Stdlib Require Import Ascii.

Module PeerIdUtils.

Definition code (c : ascii) : Z := Z.of_N (N_of_ascii c).

Definition between (lo hi : Z) (c : ascii) : bool :=
  (lo <=? code c) && (code c <=? hi).

Definition dash : ascii := "-"%char.

(** The class [[a-zA-Z0-9_-]]. *)
Definition is_id_char (c : ascii) : bool :=
  between 97 122 c || between 65 90 c || between 48 57 c
  || (code c =? 95) || (code c =? 45).

(** [/^[a-zA-Z0-9_-]{8,64}$/.test(peerId)] *)
Definition isValidPeerId (peerId : list ascii) : bool :=
  forallb is_id_char peerId
  && (8 <=? length peerId)%nat && (length peerId <=? 64)%nat.

(** The characters the dot of a regular expression does not match: line
    feed and carriage return (U+2028 and U+2029 are not Latin-1). *)
Definition is_line_terminator (c : ascii) : bool :=
  (code c =? 10) || (code c =? 13).

(** [peerId.match(/.{1,4}/g)]: from left to right, the longest runs of at
    most four characters the dot matches; [cur] is the run being read, last
    character first.  The empty list stands for the [null] of no match. *)
Fixpoint match_runs (cur : list ascii) (rest : list ascii) : list (list ascii) :=
  match rest with
  | [] => match cur with [] => [] | _ => [rev cur] end
  | c :: rest' =>
      if is_line_terminator c then
        match cur with
        | [] => match_runs [] rest'
        | _ => rev cur :: match_runs [] rest'
        end
      else if (length cur =? 3)%nat then rev (c :: cur) :: match_runs [] rest'
      else match_runs (c :: cur) rest'
  end.

(** [parts.join(sep)] *)
Definition join (sep : list ascii) (parts : list (list ascii)) : list ascii :=
  match parts with
  | [] => []
  | first :: others => first ++ flat_map (fun part => sep ++ part) others
  end.

(** [match(...)?.join("-") || peerId]: the identifier itself when nothing
    matched or the joined string is empty. *)
Definition formatPeerId (peerId : list ascii) : list ascii :=
  if (8 <=? length peerId)%nat then
    match match_runs [] peerId with
    | [] => peerId
    | runs => match join [dash] runs with [] => peerId | joined => joined end
    end
  else peerId.

(** The class [\s] below 256: tab, line feed, vertical tab, form feed,
    carriage return, space and no-break space. *)
Definition is_white_space (c : ascii) : bool :=
  between 9 13 c || (code c =? 32) || (code c =? 160).

(** [toLowerCase] on one Latin-1 character: A-Z and the accented capitals
    U+00C0 to U+00DE, the multiplication sign U+00D7 apart, move up by 32. *)
Definition toLowerCase_char (c : ascii) : ascii :=
  if between 65 90 c || (between 192 222 c && negb (code c =? 215))
  then ascii_of_N (N_of_ascii c + 32)
  else c.

(** What [replace(/[\s-]/g, "")] keeps. *)
Definition kept (c : ascii) : bool := negb (is_white_space c || (code c =? 45)).

Definition cleanPeerId (input : list ascii) : list ascii :=
  map toLowerCase_char (List.filter kept input).

(** A character [cleanPeerId] hands on as it is. *)
Definition clean_char (c : ascii) : bool :=
  kept c && bool_decide (toLowerCase_char c = c).

(** The class [[a-z0-9_]]. *)
Definition is_plain_id_char (c : ascii) : bool :=
  between 97 122 c || between 48 57 c || (code c =? 95).

(** [validateScannedPeerId] of [peer_qr_utils.ts]. *)

(** The longest run of identifier characters at the head of [l], cut at [n]. *)
Fixpoint id_prefix (n : nat) (l : list ascii) : list ascii :=
  match n, l with
  | S n', c :: l' => if is_id_char c then c :: id_prefix n' l' else []
  | _, _ => []
  end.

(** [data.match(/([a-zA-Z0-9_-]{8,20})/)]: the leftmost place where at
    least eight identifier characters follow one another, and as many of
    them as there are, up to twenty. *)
Fixpoint match_id_run (data : list ascii) : option (list ascii) :=
  match data with
  | [] => None
  | _ :: rest =>
      let run := id_prefix 20 data in
      if (8 <=? length run)%nat then Some run else match_id_run rest
  end.

Definition validateScannedPeerId (data : list ascii) : option (list ascii) :=
  let cleaned := cleanPeerId data in
  if isValidPeerId cleaned then Some cleaned
  else
    match match_id_run data with
    | Some found =>
        let extracted := cleanPeerId found in
        if isValidPeerId extracted then Some extracted else None
    | None => None
    end.

End PeerIdUtils.

(** * Properties of the wire codec *)

Section Codec.

Import WireMsg.

Lemma byte_to_Z_range (x : byte) : 0 <= byte_to_Z x <= 255.
Proof.
  unfold byte_to_Z. pose proof (Byte.to_N_bounded x). lia.
Qed.

Lemma byte_to_of_Z (v : Z) : byte_to_Z (byte_of_Z v) = v mod 256.
Proof.
  unfold byte_to_Z, byte_of_Z.
  assert (Hr : 0 <= v mod 256 < 256) by (apply Z.mod_pos_bound; lia).
  destruct (Byte.of_N (Z.to_N (v mod 256))) as [x|] eqn:Hx.
  - apply Byte.to_of_N in Hx. rewrite Hx. lia.
  - apply Byte.of_N_None_iff in Hx. lia.
Qed.

Lemma byte_to_Z_inj (x y : byte) : byte_to_Z x = byte_to_Z y -> x = y.
Proof.
  unfold byte_to_Z. intros Hxy.
  assert (Hn : Byte.to_N x = Byte.to_N y) by lia.
  pose proof (Byte.of_to_N x) as Hx. pose proof (Byte.of_to_N y) as Hy.
  rewrite Hn in Hx. congruence.
Qed.

Lemma byte_of_to_Z (x : byte) : byte_of_Z (byte_to_Z x) = x.
Proof.
  apply byte_to_Z_inj. rewrite byte_to_of_Z.
  pose proof (byte_to_Z_range x). apply Z.mod_small. lia.
Qed.

(** The four bytes of a 32-bit value, least significant first, put together
    again. *)
Lemma uint32_le_bytes (u : Z) :
  0 <= u < 2 ^ 32 ->
  u mod 256 + Z.shiftl (Z.shiftr u 8 mod 256) 8
  + Z.shiftl (Z.shiftr u 16 mod 256) 16 + Z.shiftl (Z.shiftr u 24 mod 256) 24 = u.
Proof.
  intros Hu.
  rewrite !Z.shiftr_div_pow2, !Z.shiftl_mul_pow2 by lia.
  change (2 ^ 8) with 256. change (2 ^ 16) with 65536.
  change (2 ^ 24) with 16777216. change (2 ^ 32) with 4294967296 in Hu.
  Z.to_euclidean_division_equations. lia.
Qed.

Lemma int8_round_trip (v : Z) :
  -128 <= v <= 127 ->
  (if 128 <=? v mod 256 then v mod 256 - 256 else v mod 256) = v.
Proof.
  intros Hv.
  destruct (Z.leb_spec 128 (v mod 256)); Z.to_euclidean_division_equations; lia.
Qed.

Lemma encodeInputPair_bytes (p : InputPair) :
  encodeInputPair p =
  let u := tick p mod 2 ^ 32 in
  [ x01; byte_of_Z u; byte_of_Z (Z.shiftr u 8); byte_of_Z (Z.shiftr u 16);
    byte_of_Z (Z.shiftr u 24);
    byte_of_Z (axis_y (a p)); byte_of_Z (buttons (a p));
    byte_of_Z (axis_y (b p)); byte_of_Z (buttons (b p)) ].
Proof. reflexivity. Qed.

Lemma encodePing_bytes (ts : Z) :
  encodePing ts =
  let u := ts mod 2 ^ 32 in
  [ x03; byte_of_Z u; byte_of_Z (Z.shiftr u 8); byte_of_Z (Z.shiftr u 16);
    byte_of_Z (Z.shiftr u 24) ].
Proof. reflexivity. Qed.

Lemma encodeSnapshot_bytes (s : list byte) : encodeSnapshot s = x02 :: s.
Proof.
  unfold encodeSnapshot, Uint8Array_set, setUint8, ArrayBuffer_new. simpl.
  rewrite drop_replicate.
  replace (length s - length s)%nat with 0%nat by lia.
  simpl. by rewrite app_nil_r.
Qed.

Lemma decode_input_pair_bytes (t0 t1 t2 t3 aa ab ba bb : byte) :
  decode [x01; t0; t1; t2; t3; aa; ab; ba; bb] =
  Return (input_pair
            {| tick := uint32_of_bytes t0 t1 t2 t3;
               a := {| axis_y := int8_of_byte aa; buttons := byte_to_Z ab |};
               b := {| axis_y := int8_of_byte ba; buttons := byte_to_Z bb |} |}).
Proof. reflexivity. Qed.

Lemma decode_ping_bytes (t0 t1 t2 t3 : byte) :
  decode [x03; t0; t1; t2; t3] = Return (ping (uint32_of_bytes t0 t1 t2 t3)).
Proof. reflexivity. Qed.

Lemma decode_snapshot_bytes (payload : list byte) :
  decode (x02 :: payload) = Return (snapshot payload).
Proof. reflexivity. Qed.

Lemma uint32_round_trip (v : Z) :
  0 <= v < 2 ^ 32 ->
  let u := v mod 2 ^ 32 in
  uint32_of_bytes (byte_of_Z u) (byte_of_Z (Z.shiftr u 8))
                  (byte_of_Z (Z.shiftr u 16)) (byte_of_Z (Z.shiftr u 24)) = v.
Proof.
  intros Hv u. unfold uint32_of_bytes. rewrite !byte_to_of_Z.
  assert (Hu : u = v) by (apply Z.mod_small; lia).
  rewrite Hu. by apply uint32_le_bytes.
Qed.

Lemma int8_of_byte_of_Z (v : Z) : -128 <= v <= 127 -> int8_of_byte (byte_of_Z v) = v.
Proof.
  intros Hv. unfold int8_of_byte. rewrite byte_to_of_Z. by apply int8_round_trip.
Qed.

Lemma uint8_of_byte_of_Z (v : Z) : 0 <= v <= 255 -> byte_to_Z (byte_of_Z v) = v.
Proof. intros Hv. rewrite byte_to_of_Z. apply Z.mod_small. lia. Qed.

(** C3. The codec is symmetric: decoding an encoded [InputPair] whose tick
    is a [u32], whose axis values lie in [-127,127] and whose button bytes
    lie in [0,255] gives back an [input_pair] message with the same tick
    and inputs; decoding an encoded ping with a [u32] timestamp gives back
    that timestamp; decoding an encoded snapshot gives back the payload
    bytes. *)
Theorem codec_round_trip :
  (forall p : InputPair,
     0 <= tick p < 2 ^ 32 ->
     -127 <= axis_y (a p) <= 127 -> 0 <= buttons (a p) <= 255 ->
     -127 <= axis_y (b p) <= 127 -> 0 <= buttons (b p) <= 255 ->
     decode (encodeInputPair p) = Return (input_pair p))
  /\ (forall ts : Z, 0 <= ts < 2 ^ 32 -> decode (encodePing ts) = Return (ping ts))
  /\ (forall s : list byte, decode (encodeSnapshot s) = Return (snapshot s)).
Proof.
  split; [|split].
  - intros [tk [aa ab] [ba bb]]; simpl; intros Htk Haa Hab Hba Hbb.
    rewrite encodeInputPair_bytes. cbv zeta. rewrite decode_input_pair_bytes.
    simpl tick. rewrite uint32_round_trip by done. simpl axis_y. simpl buttons.
    rewrite !int8_of_byte_of_Z, !uint8_of_byte_of_Z by lia. done.
  - intros ts Hts. rewrite encodePing_bytes. cbv zeta.
    rewrite decode_ping_bytes. by rewrite uint32_round_trip.
  - intros s. rewrite encodeSnapshot_bytes. apply decode_snapshot_bytes.
Qed.

Lemma codec_round_trip_witness :
  decode (encodeInputPair (mkInputPair 258 (mkInput (-5) 1) (mkInput 127 255)))
  = Return (input_pair (mkInputPair 258 (mkInput (-5) 1) (mkInput 127 255)))
  /\ decode (encodePing 4294967295) = Return (ping 4294967295)
  /\ decode (encodeSnapshot [x07; xff]) = Return (snapshot [x07; xff]).
Proof.
  destruct codec_round_trip as (Hpair & Hping & Hsnap).
  split; [|split].
  - apply Hpair; simpl; lia.
  - apply Hping; lia.
  - apply Hsnap.
Defined.

Lemma decode_unknown_tag (tag : byte) (rest : list byte) :
  byte_to_Z tag <> 1 -> byte_to_Z tag <> 2 -> byte_to_Z tag <> 3 ->
  decode (tag :: rest)
  = Throw (Error ("Unknown message type: " +:+ pretty (byte_to_Z tag))).
Proof.
  intros H1 H2 H3. unfold decode. simpl.
  unfold WIRE_MSG_INPUT_PAIR, WIRE_MSG_SNAPSHOT, WIRE_MSG_PING.
  destruct (Z.eqb_spec (byte_to_Z tag) 1); [done|].
  destruct (Z.eqb_spec (byte_to_Z tag) 2); [done|].
  destruct (Z.eqb_spec (byte_to_Z tag) 3); done.
Qed.

Lemma decode_input_pair_bad_length (rest : list byte) :
  length rest <> 8%nat ->
  decode (x01 :: rest) = Throw (Error "Invalid InputPair message length").
Proof.
  intros Hlen. unfold decode. simpl.
  destruct (Nat.eqb_spec (length rest) 8); done.
Qed.

Lemma decode_ping_bad_length (rest : list byte) :
  length rest <> 4%nat ->
  decode (x03 :: rest) = Throw (Error "Invalid Ping message length").
Proof.
  intros Hlen. unfold decode. simpl.
  destruct (Nat.eqb_spec (length rest) 4); done.
Qed.

Lemma tag_of_Z (tag x : byte) : byte_to_Z tag = byte_to_Z x -> tag = x.
Proof. apply byte_to_Z_inj. Qed.

Lemma decode_input_pair_returns (rest : list byte) :
  length rest = 8%nat -> exists p, decode (x01 :: rest) = Return (input_pair p).
Proof.
  intros Hlen.
  do 8 (destruct rest as [|? rest]; [done|]).
  destruct rest; [|done]. rewrite decode_input_pair_bytes. eauto.
Qed.

Lemma decode_ping_returns (rest : list byte) :
  length rest = 4%nat -> exists ts, decode (x03 :: rest) = Return (ping ts).
Proof.
  intros Hlen.
  do 4 (destruct rest as [|? rest]; [done|]).
  destruct rest; [|done]. rewrite decode_ping_bytes. eauto.
Qed.

(** C4. [decode] checks the exact length each tag fixes and fails with a
    thrown [Error] value, never with a fault of the buffer accessors: on
    the empty buffer, on a first byte other than 0x01, 0x02, 0x03, on a
    length other than 9 under tag 0x01 and on a length other than 5 under
    tag 0x03; it returns exactly on the well-formed buffers. *)
Theorem decode_validates (bytes : list byte) :
  (bytes = [] -> decode bytes = Throw (Error "Empty message"))
  /\ (forall tag rest, bytes = tag :: rest ->
        byte_to_Z tag <> 1 -> byte_to_Z tag <> 2 -> byte_to_Z tag <> 3 ->
        decode bytes
        = Throw (Error ("Unknown message type: " +:+ pretty (byte_to_Z tag))))
  /\ (forall rest, bytes = x01 :: rest -> length bytes <> 9%nat ->
        decode bytes = Throw (Error "Invalid InputPair message length"))
  /\ (forall rest, bytes = x03 :: rest -> length bytes <> 5%nat ->
        decode bytes = Throw (Error "Invalid Ping message length"))
  /\ (returns (decode bytes) <-> well_formed bytes = true)
  /\ (forall e, decode bytes = Throw e -> exists m, e = Error m).
Proof.
  split; [intros ->; reflexivity|].
  split; [intros tag rest ->; apply decode_unknown_tag|].
  split; [intros rest -> Hlen; apply decode_input_pair_bad_length; simpl in Hlen; lia|].
  split; [intros rest -> Hlen; apply decode_ping_bad_length; simpl in Hlen; lia|].
  destruct bytes as [|tag rest].
  { split; [split; [intros [v Hv]; discriminate|discriminate]|].
    intros e He. inversion He. eauto. }
  unfold well_formed, WIRE_MSG_INPUT_PAIR, WIRE_MSG_SNAPSHOT, WIRE_MSG_PING.
  destruct (Z.eqb_spec (byte_to_Z tag) 1) as [E1|N1].
  { apply (tag_of_Z tag x01) in E1. subst tag. simpl length.
    destruct (Nat.eqb_spec (S (length rest)) 9) as [Hlen|Hlen].
    - destruct (decode_input_pair_returns rest) as [p Hp]; [lia|].
      rewrite Hp. split; [split; [done|intros _; by exists (input_pair p)]|].
      intros e He. discriminate.
    - rewrite decode_input_pair_bad_length by lia.
      split; [split; [intros [v Hv]; discriminate|discriminate]|].
      intros e He. inversion He. eauto. }
  destruct (Z.eqb_spec (byte_to_Z tag) 2) as [E2|N2].
  { apply (tag_of_Z tag x02) in E2. subst tag. rewrite decode_snapshot_bytes.
    split; [split; [done|intros _; by eexists]|]. intros e He. discriminate. }
  destruct (Z.eqb_spec (byte_to_Z tag) 3) as [E3|N3].
  { apply (tag_of_Z tag x03) in E3. subst tag. simpl length.
    destruct (Nat.eqb_spec (S (length rest)) 5) as [Hlen|Hlen].
    - destruct (decode_ping_returns rest) as [ts Hts]; [lia|].
      rewrite Hts. split; [split; [done|intros _; by eexists]|].
      intros e He. discriminate.
    - rewrite decode_ping_bad_length by lia.
      split; [split; [intros [v Hv]; discriminate|discriminate]|].
      intros e He. inversion He. eauto. }
  rewrite decode_unknown_tag by done.
  split; [split; [intros [v Hv]; discriminate|discriminate]|].
  intros e He. inversion He. eauto.
Qed.

Lemma decode_validates_witness :
  decode [] = Throw (Error "Empty message")
  /\ decode [x09; x00] = Throw (Error "Unknown message type: 9")
  /\ decode [x01; x00; x00] = Throw (Error "Invalid InputPair message length")
  /\ decode [x03; x00; x00; x00; x00; x00]
     = Throw (Error "Invalid Ping message length")
  /\ returns (decode [x03; x01; x00; x00; x00]).
Proof.
  split; [apply (decode_validates []); reflexivity|].
  split.
  { destruct (decode_validates [x09; x00]) as (_ & Hunk & _).
    apply (Hunk x09 [x00]); [reflexivity|by vm_compute..]. }
  split.
  { destruct (decode_validates [x01; x00; x00]) as (_ & _ & Hlen & _).
    apply (Hlen [x00; x00]); [reflexivity|simpl; lia]. }
  split.
  { destruct (decode_validates [x03; x00; x00; x00; x00; x00]) as (_ & _ & _ & Hlen & _).
    apply (Hlen [x00; x00; x00; x00; x00]); [reflexivity|simpl; lia]. }
  destruct (decode_validates [x03; x01; x00; x00; x00]) as (_ & _ & _ & _ & Hwf & _).
  apply Hwf. reflexivity.
Defined.

(** ** Beyond the stated ranges *)

Lemma int8_of_byte_of_Z_wraps (v : Z) : int8_of_byte (byte_of_Z v) = ToInt8 v.
Proof.
  unfold int8_of_byte, ToInt8. rewrite byte_to_of_Z.
  change (2 ^ 8) with 256. change (2 ^ 7) with 128.
  destruct (Z.leb_spec 128 (v mod 256)); Z.to_euclidean_division_equations; lia.
Qed.

Lemma uint32_of_bytes_wraps (v : Z) :
  let u := v mod 2 ^ 32 in
  uint32_of_bytes (byte_of_Z u) (byte_of_Z (Z.shiftr u 8))
                  (byte_of_Z (Z.shiftr u 16)) (byte_of_Z (Z.shiftr u 24))
  = ToUint32 v.
Proof.
  intros u. unfold ToUint32. fold u.
  assert (Hu : 0 <= u < 2 ^ 32) by (apply Z.mod_pos_bound; lia).
  pose proof (uint32_round_trip u Hu) as Hrt. cbv zeta in Hrt.
  rewrite (Z.mod_small u) in Hrt by lia. exact Hrt.
Qed.

Lemma wire_input_fits (i : Input) : fits_wire i -> wire_input i = i.
Proof.
  destruct i as [ax bt]. unfold fits_wire, wire_input, ToInt8, ToUint8. simpl.
  change (2 ^ 8) with 256. change (2 ^ 7) with 128.
  intros [Hax Hbt]. f_equal; Z.to_euclidean_division_equations; lia.
Qed.

Lemma wire_input_is_wire (i : Input) : fits_wire (wire_input i).
Proof.
  unfold fits_wire, wire_input, ToInt8, ToUint8. simpl.
  change (2 ^ 8) with 256. change (2 ^ 7) with 128.
  split; Z.to_euclidean_division_equations; lia.
Qed.

Lemma decode_encodeInputPair (p : InputPair) :
  decode (encodeInputPair p) = Return (input_pair (wire_pair p)).
Proof.
  rewrite encodeInputPair_bytes. cbv zeta. rewrite decode_input_pair_bytes.
  rewrite uint32_of_bytes_wraps, !int8_of_byte_of_Z_wraps, !byte_to_of_Z.
  reflexivity.
Qed.

Lemma decode_encodePing (ts : Z) :
  decode (encodePing ts) = Return (ping (ToUint32 ts)).
Proof.
  rewrite encodePing_bytes. cbv zeta. rewrite decode_ping_bytes.
  by rewrite uint32_of_bytes_wraps.
Qed.

(** X1. An encoded message always has the length of its kind and always
    decodes, whatever numbers went in: the tick or timestamp comes back
    reduced modulo 2^32, an axis wrapped into [-128, 127] and a button
    value reduced modulo 256. *)
Theorem decode_encode_wraps :
  (forall p : InputPair,
     length (encodeInputPair p) = 9%nat
     /\ decode (encodeInputPair p) = Return (input_pair (wire_pair p)))
  /\ (forall ts : Z,
        length (encodePing ts) = 5%nat
        /\ decode (encodePing ts) = Return (ping (ToUint32 ts)))
  /\ (forall s : list byte, length (encodeSnapshot s) = S (length s)).
Proof.
  split; [|split].
  - intros p. split; [by rewrite encodeInputPair_bytes|apply decode_encodeInputPair].
  - intros ts. split; [by rewrite encodePing_bytes|apply decode_encodePing].
  - intros s. by rewrite encodeSnapshot_bytes.
Qed.

(** ** From bytes to a message and back *)

Lemma decode_inv (bytes : list byte) (m : t) :
  decode bytes = Return m ->
  (exists t0 t1 t2 t3 aa ab ba bb,
     bytes = [x01; t0; t1; t2; t3; aa; ab; ba; bb]
     /\ m = input_pair
             {| tick := uint32_of_bytes t0 t1 t2 t3;
                a := {| axis_y := int8_of_byte aa; buttons := byte_to_Z ab |};
                b := {| axis_y := int8_of_byte ba; buttons := byte_to_Z bb |} |})
  \/ (exists payload, bytes = x02 :: payload /\ m = snapshot payload)
  \/ (exists t0 t1 t2 t3,
        bytes = [x03; t0; t1; t2; t3] /\ m = ping (uint32_of_bytes t0 t1 t2 t3)).
Proof.
  intros Hdec. destruct bytes as [|tag rest]; [discriminate|].
  destruct (Z.eq_dec (byte_to_Z tag) 1) as [E1|N1].
  { apply (tag_of_Z tag x01) in E1. subst tag. left.
    destruct (Nat.eq_dec (length rest) 8%nat) as [Hlen|Hlen].
    - do 8 (destruct rest as [|? rest]; [done|]). destruct rest; [|done].
      rewrite decode_input_pair_bytes in Hdec. inversion Hdec.
      by repeat eexists.
    - rewrite decode_input_pair_bad_length in Hdec by done. discriminate. }
  destruct (Z.eq_dec (byte_to_Z tag) 2) as [E2|N2].
  { apply (tag_of_Z tag x02) in E2. subst tag. right. left.
    rewrite decode_snapshot_bytes in Hdec. inversion Hdec. eauto. }
  destruct (Z.eq_dec (byte_to_Z tag) 3) as [E3|N3].
  { apply (tag_of_Z tag x03) in E3. subst tag. right. right.
    destruct (Nat.eq_dec (length rest) 4%nat) as [Hlen|Hlen].
    - do 4 (destruct rest as [|? rest]; [done|]). destruct rest; [|done].
      rewrite decode_ping_bytes in Hdec. inversion Hdec.
      by repeat eexists.
    - rewrite decode_ping_bad_length in Hdec by done. discriminate. }
  rewrite decode_unknown_tag in Hdec by done. discriminate.
Qed.

Lemma byte_of_Z_eq (v : Z) (x : byte) : v mod 256 = byte_to_Z x -> byte_of_Z v = x.
Proof. intros Hv. apply byte_to_Z_inj. by rewrite byte_to_of_Z. Qed.

Lemma byte_of_int8_of_byte (x : byte) : byte_of_Z (int8_of_byte x) = x.
Proof.
  apply byte_of_Z_eq. unfold int8_of_byte. pose proof (byte_to_Z_range x).
  destruct (Z.leb_spec 128 (byte_to_Z x)); Z.to_euclidean_division_equations; lia.
Qed.

Lemma setUint32_of_bytes (t0 t1 t2 t3 : byte) :
  let u := uint32_of_bytes t0 t1 t2 t3 mod 2 ^ 32 in
  byte_of_Z u = t0 /\ byte_of_Z (Z.shiftr u 8) = t1
  /\ byte_of_Z (Z.shiftr u 16) = t2 /\ byte_of_Z (Z.shiftr u 24) = t3.
Proof.
  intros u. subst u. unfold uint32_of_bytes.
  pose proof (byte_to_Z_range t0). pose proof (byte_to_Z_range t1).
  pose proof (byte_to_Z_range t2). pose proof (byte_to_Z_range t3).
  rewrite !Z.shiftl_mul_pow2 by lia.
  change (2 ^ 8) with 256. change (2 ^ 16) with 65536.
  change (2 ^ 24) with 16777216. change (2 ^ 32) with 4294967296.
  rewrite Z.mod_small by lia.
  repeat split; apply byte_of_Z_eq; rewrite ?Z.shiftr_div_pow2 by lia;
    change (2 ^ 8) with 256; change (2 ^ 16) with 65536;
    change (2 ^ 24) with 16777216;
    Z.to_euclidean_division_equations; lia.
Qed.

(** X2. Encoding what [decode] returned gives back the very bytes that were
    decoded, for each of the three kinds: no two buffers decode to the same
    message. *)
Theorem encode_decode_id (bytes : list byte) :
  (forall p, decode bytes = Return (input_pair p) -> encodeInputPair p = bytes)
  /\ (forall ts, decode bytes = Return (ping ts) -> encodePing ts = bytes)
  /\ (forall d, decode bytes = Return (snapshot d) -> encodeSnapshot d = bytes).
Proof.
  split; [|split].
  - intros p Hdec.
    destruct (decode_inv _ _ Hdec)
      as [(t0 & t1 & t2 & t3 & aa & ab & ba & bb & -> & Hm)
         |[(payload & -> & Hm)|(t0 & t1 & t2 & t3 & -> & Hm)]];
      [|discriminate..].
    inversion Hm; subst p. rewrite encodeInputPair_bytes. cbv zeta. simpl.
    destruct (setUint32_of_bytes t0 t1 t2 t3) as (-> & -> & -> & ->).
    by rewrite !byte_of_int8_of_byte, !byte_of_to_Z.
  - intros ts Hdec.
    destruct (decode_inv _ _ Hdec)
      as [(t0 & t1 & t2 & t3 & aa & ab & ba & bb & -> & Hm)
         |[(payload & -> & Hm)|(t0 & t1 & t2 & t3 & -> & Hm)]];
      [discriminate..|].
    inversion Hm; subst ts. rewrite encodePing_bytes. cbv zeta.
    by destruct (setUint32_of_bytes t0 t1 t2 t3) as (-> & -> & -> & ->).
  - intros d Hdec.
    destruct (decode_inv _ _ Hdec)
      as [(t0 & t1 & t2 & t3 & aa & ab & ba & bb & -> & Hm)
         |[(payload & -> & Hm)|(t0 & t1 & t2 & t3 & -> & Hm)]];
      [discriminate| |discriminate].
    inversion Hm; subst d. apply encodeSnapshot_bytes.
Qed.

End Codec.

(** * Properties of the lockstep engine *)

Section LockstepProps.

Context {C E T GameView : Type} `{!CoreAdapter C E} `{!Transport T}.
Context (JSON_parse : string -> GameView).

Implicit Types s : Lockstep.t C T.

Ltac unfold_methods :=
  unfold Lockstep.start, Lockstep.stop, Lockstep.onLocalInput,
    Lockstep.onNetMessage, Lockstep.tick, Lockstep.requestSnapshot,
    Lockstep.ping.

Ltac unfold_M :=
  unfold Lockstep.console_error, Lockstep.core_step, Lockstep.core_viewJson,
    Lockstep.core_snapshotBytes, Lockstep.core_restoreBytes,
    Lockstep.core_getCurrentTick, Lockstep.transport_send,
    Lockstep.transport_isOpen;
  unfold mbind, mret, Lockstep.M_bind, Lockstep.M_ret, Lockstep.gets,
    Lockstep.modify, Lockstep.throw, Lockstep.try_catch, Lockstep.liftC.

Lemma tick_not_running s :
  Lockstep.isRunning s = false ->
  Lockstep.tick JSON_parse s
  = (Return {| Lockstep.view := JSON_parse (viewJson (Lockstep.core s));
               Lockstep.events := [] |}, s).
Proof.
  intros Hrun. unfold_methods. unfold_M. rewrite Hrun. reflexivity.
Qed.

Lemma tick_stalled s :
  Lockstep.isRunning s = true ->
  Lockstep.localInputBuffer s !! Lockstep.currentTick s = None
  \/ Lockstep.remoteInputBuffer s !! Lockstep.currentTick s = None ->
  Lockstep.tick JSON_parse s
  = (Return {| Lockstep.view := JSON_parse (viewJson (Lockstep.core s));
               Lockstep.events := [] |}, s).
Proof.
  intros Hrun Hnone. unfold_methods. unfold_M. cbn beta iota.
  rewrite Hrun. cbn beta iota delta [negb].
  destruct Hnone as [Hl | Hr].
  - rewrite Hl. reflexivity.
  - rewrite Hr. by destruct (Lockstep.localInputBuffer s !! Lockstep.currentTick s).
Qed.

Lemma tick_advance s li ri :
  Lockstep.isRunning s = true ->
  Lockstep.localInputBuffer s !! Lockstep.currentTick s = Some li ->
  Lockstep.remoteInputBuffer s !! Lockstep.currentTick s = Some ri ->
  let cur := Lockstep.currentTick s in
  let s' :=
    Lockstep.mk
      (Lockstep.step_with (Lockstep.localSide s) (Lockstep.localInputBuffer s)
         (Lockstep.remoteInputBuffer s) (Lockstep.core s) cur)
      (Lockstep.transport s) (cur + 1) (Lockstep.localSide s) true
      (delete cur (Lockstep.localInputBuffer s))
      (delete cur (Lockstep.remoteInputBuffer s))
      (Lockstep.console s) in
  exists evs,
    Lockstep.tick JSON_parse s
    = (Return {| Lockstep.view := JSON_parse (viewJson (Lockstep.core s'));
                 Lockstep.events := evs |}, s').
Proof.
  intros Hrun Hl Hr cur s'. subst s' cur. unfold Lockstep.step_with.
  unfold_methods. unfold_M. cbn beta iota.
  rewrite Hrun. cbn beta iota delta [negb]. rewrite Hl, Hr. cbn beta iota.
  destruct (step _ _ _ _ _ _) as [[ev|] c'] eqn:Hstep;
    unfold Lockstep.set_currentTick, Lockstep.set_remoteInputBuffer,
      Lockstep.set_localInputBuffer, Lockstep.set_core; simpl; rewrite Hrun;
    eexists; reflexivity.
Qed.

Ltac run_M := unfold_methods; unfold_M; cbn beta iota.

Ltac crunch :=
  repeat (case_match; simplify_eq/=); try done; auto;
  try (intros _ Hrun; rewrite Hrun in *; done).

Lemma reachable_buffers_empty_when_stopped s :
  Lockstep.reachable JSON_parse s -> Lockstep.buffers_empty_when_stopped s.
Proof.
  unfold Lockstep.buffers_empty_when_stopped.
  induction 1 as [ | s Hs IH | s Hs IH | s ax bt Hs IH | s bytes Hs IH
                 | s Hs IH | s Hs IH | s now Hs IH | s c' tr' Hs IH ].
  - done.
  - revert IH. run_M. crunch.
  - done.
  - revert IH. run_M. crunch.
  - revert IH. run_M. crunch.
  - revert IH. run_M. crunch.
  - revert IH. run_M. crunch.
  - revert IH. run_M. crunch.
  - done.
Qed.

(** C1. From any reachable state a call of [tick] moves the cursor up only
    if both buffers hold an entry for the current tick at the call; when
    both do, the cursor goes up by exactly one, both entries for that tick
    are removed, and the core has taken one [step] with that tick and the
    two inputs; when one is missing nothing changes; in every case the
    view of the core as it then stands is returned. *)
Theorem tick_lockstep s :
  Lockstep.reachable JSON_parse s ->
  let cur := Lockstep.currentTick s in
  let s' := (Lockstep.tick JSON_parse s).2 in
  (cur < Lockstep.currentTick s' ->
     is_Some (Lockstep.localInputBuffer s !! cur)
     /\ is_Some (Lockstep.remoteInputBuffer s !! cur))
  /\ (forall li ri,
        Lockstep.localInputBuffer s !! cur = Some li ->
        Lockstep.remoteInputBuffer s !! cur = Some ri ->
        let aInput := if decide (Lockstep.localSide s = Left) then li else ri in
        let bInput := if decide (Lockstep.localSide s = Left) then ri else li in
        Lockstep.currentTick s' = cur + 1
        /\ Lockstep.localInputBuffer s' = delete cur (Lockstep.localInputBuffer s)
        /\ Lockstep.remoteInputBuffer s' = delete cur (Lockstep.remoteInputBuffer s)
        /\ Lockstep.core s'
           = (step (Lockstep.core s) cur (axis_y aInput) (buttons aInput)
                   (axis_y bInput) (buttons bInput)).2)
  /\ (Lockstep.localInputBuffer s !! cur = None
      \/ Lockstep.remoteInputBuffer s !! cur = None -> s' = s)
  /\ exists evs,
       (Lockstep.tick JSON_parse s).1
       = Return {| Lockstep.view := JSON_parse (viewJson (Lockstep.core s'));
                   Lockstep.events := evs |}.
Proof.
  intros Hreach cur s'.
  destruct (Lockstep.isRunning s) eqn:Hrun.
  - destruct (Lockstep.localInputBuffer s !! cur) as [li|] eqn:Hl;
      [destruct (Lockstep.remoteInputBuffer s !! cur) as [ri|] eqn:Hr|].
    + destruct (tick_advance s li ri Hrun Hl Hr) as [evs Htick].
      subst s'. rewrite Htick. simpl.
      split; [eauto|]. split; [|split; [intros [?|?]; done|eauto]].
      intros li' ri' ? ?. simplify_eq. unfold Lockstep.step_with.
      fold cur. rewrite Hl, Hr. done.
    + subst s'. rewrite (tick_stalled s Hrun) by (right; done). simpl.
      split; [lia|]. split; [done|]. split; [done|eauto].
    + subst s'. rewrite (tick_stalled s Hrun) by (left; done). simpl.
      split; [lia|]. split; [done|]. split; [done|eauto].
  - subst s'. rewrite (tick_not_running s Hrun). simpl.
    destruct (reachable_buffers_empty_when_stopped s Hreach Hrun) as [Hl Hr].
    split; [lia|]. split; [|split; [done|eauto]].
    intros li ri Hli. rewrite Hl in Hli. done.
Qed.

Lemma ticks_succ_r (n : nat) s :
  Lockstep.ticks JSON_parse (S n) s
  = (Lockstep.tick JSON_parse (Lockstep.ticks JSON_parse n s)).2.
Proof.
  revert s. induction n as [|n IH]; intros s; [done|].
  change (Lockstep.ticks JSON_parse (S (S n)) s)
    with (Lockstep.ticks JSON_parse (S n) (Lockstep.tick JSON_parse s).2).
  by rewrite IH.
Qed.

Lemma ticks_stalled (m : nat) s :
  Lockstep.isRunning s = true ->
  Lockstep.localInputBuffer s !! Lockstep.currentTick s = None
  \/ Lockstep.remoteInputBuffer s !! Lockstep.currentTick s = None ->
  Lockstep.ticks JSON_parse m s = s.
Proof.
  intros Hrun Hnone. induction m as [|m IH]; [done|].
  simpl. by rewrite (tick_stalled s Hrun Hnone).
Qed.

Lemma ticks_add (n m : nat) s :
  Lockstep.ticks JSON_parse (n + m) s
  = Lockstep.ticks JSON_parse m (Lockstep.ticks JSON_parse n s).
Proof.
  revert s. induction n as [|n IH]; intros s; [done|]. simpl. apply IH.
Qed.

Lemma step_with_ext (side : Side) (l r l' r' : gmap Z Input) (c : C) (tk : Z) :
  l !! tk = l' !! tk -> r !! tk = r' !! tk ->
  Lockstep.step_with side l r c tk = Lockstep.step_with side l' r' c tk.
Proof. unfold Lockstep.step_with. by intros -> ->. Qed.

(** The state [k] drive calls into a backlog of [N] buffered ticks. *)
Lemma catch_up_state s (N : nat) :
  Lockstep.isRunning s = true ->
  (forall k : nat, (k < N)%nat ->
     is_Some (Lockstep.localInputBuffer s !! (Lockstep.currentTick s + Z.of_nat k))
     /\ is_Some (Lockstep.remoteInputBuffer s !! (Lockstep.currentTick s + Z.of_nat k))) ->
  forall k : nat, (k <= N)%nat ->
    let sk := Lockstep.ticks JSON_parse k s in
    Lockstep.isRunning sk = true
    /\ Lockstep.localSide sk = Lockstep.localSide s
    /\ Lockstep.currentTick sk = Lockstep.currentTick s + Z.of_nat k
    /\ Lockstep.core sk
       = foldl (Lockstep.step_with (Lockstep.localSide s)
                  (Lockstep.localInputBuffer s) (Lockstep.remoteInputBuffer s))
               (Lockstep.core s) (seqZ (Lockstep.currentTick s) (Z.of_nat k))
    /\ (forall tk, Lockstep.currentTick s + Z.of_nat k <= tk ->
          Lockstep.localInputBuffer sk !! tk = Lockstep.localInputBuffer s !! tk
          /\ Lockstep.remoteInputBuffer sk !! tk = Lockstep.remoteInputBuffer s !! tk).
Proof.
  intros Hrun Hbacklog k. induction k as [|k IH]; intros Hk sk.
  { subst sk. simpl. rewrite Z.add_0_r. done. }
  destruct IH as (IHrun & IHside & IHcur & IHcore & IHbuf); [lia|].
  destruct (Hbacklog k) as [[li Hli] [ri Hri]]; [lia|].
  destruct (IHbuf (Lockstep.currentTick s + Z.of_nat k)) as [Hl Hr]; [lia|].
  assert (Hstep :
    Lockstep.step_with (Lockstep.localSide (Lockstep.ticks JSON_parse k s))
      (Lockstep.localInputBuffer (Lockstep.ticks JSON_parse k s))
      (Lockstep.remoteInputBuffer (Lockstep.ticks JSON_parse k s))
      (Lockstep.core (Lockstep.ticks JSON_parse k s))
      (Lockstep.currentTick (Lockstep.ticks JSON_parse k s))
    = foldl (Lockstep.step_with (Lockstep.localSide s)
               (Lockstep.localInputBuffer s) (Lockstep.remoteInputBuffer s))
            (Lockstep.core s)
            (seqZ (Lockstep.currentTick s) (Z.of_nat (S k)))).
  { rewrite seqZ_S, foldl_snoc, <- IHcore, IHside, IHcur.
    by apply step_with_ext. }
  rewrite Hli, <- IHcur in Hl. rewrite Hri, <- IHcur in Hr.
  destruct (tick_advance _ li ri IHrun Hl Hr) as [evs Htick].
  subst sk. rewrite ticks_succ_r, Htick. simpl.
  split; [done|]. split; [done|]. split; [lia|]. split; [done|].
  intros tk Htk. rewrite !lookup_delete_ne by lia. apply IHbuf. lia.
Qed.

Lemma ticks_not_running (m : nat) s :
  Lockstep.isRunning s = false -> Lockstep.ticks JSON_parse m s = s.
Proof.
  intros Hrun. induction m as [|m IH]; [done|].
  simpl. by rewrite (tick_not_running s Hrun).
Qed.

(** C8. From a reachable state with entries for the [N] ticks from the
    cursor [T0] on in both buffers (a buffer is a map, so the order of
    insertion plays no part), the first [N] drive calls advance the cursor
    one tick each: after [k] of them the cursor is [T0 + k] and the core
    has taken the steps for [T0], ..., [T0 + k - 1], once each and in that
    order.  Unless both buffers also hold an entry for [T0 + N], every
    later call leaves the state as it is after the [N]th, the cursor at
    [T0 + N]. *)
Theorem catch_up s (T0 : Z) (N : nat) :
  Lockstep.reachable JSON_parse s ->
  Lockstep.currentTick s = T0 ->
  (forall k : nat, (k < N)%nat ->
     is_Some (Lockstep.localInputBuffer s !! (T0 + Z.of_nat k))
     /\ is_Some (Lockstep.remoteInputBuffer s !! (T0 + Z.of_nat k))) ->
  (forall k : nat, (k <= N)%nat ->
     Lockstep.currentTick (Lockstep.ticks JSON_parse k s) = T0 + Z.of_nat k
     /\ Lockstep.core (Lockstep.ticks JSON_parse k s)
        = foldl (Lockstep.step_with (Lockstep.localSide s)
                   (Lockstep.localInputBuffer s) (Lockstep.remoteInputBuffer s))
                (Lockstep.core s) (seqZ T0 (Z.of_nat k)))
  /\ (Lockstep.localInputBuffer s !! (T0 + Z.of_nat N) = None
      \/ Lockstep.remoteInputBuffer s !! (T0 + Z.of_nat N) = None ->
      forall m : nat, (N <= m)%nat ->
        Lockstep.ticks JSON_parse m s = Lockstep.ticks JSON_parse N s).
Proof.
  intros Hreach <- Hbacklog.
  destruct (Lockstep.isRunning s) eqn:Hrun.
  - split.
    + intros k Hk.
      destruct (catch_up_state s N Hrun Hbacklog k Hk) as (_ & _ & Hcur & Hcore & _).
      done.
    + intros Hnone m Hm.
      destruct (catch_up_state s N Hrun Hbacklog N) as (HrunN & _ & Hcur & _ & Hbuf);
        [lia|].
      destruct (Hbuf (Lockstep.currentTick s + Z.of_nat N)) as [Hl Hr]; [lia|].
      replace m with (N + (m - N))%nat by lia. rewrite ticks_add.
      apply ticks_stalled; [done|]. rewrite Hcur, Hl, Hr. done.
  - destruct (reachable_buffers_empty_when_stopped s Hreach Hrun) as [Hl Hr].
    destruct N as [|N].
    + split.
      * intros k Hk. replace k with 0%nat by lia. simpl. rewrite Z.add_0_r. done.
      * intros _ m _. by rewrite ticks_not_running.
    + destruct (Hbacklog 0%nat) as [[li Hli] _]; [lia|].
      rewrite Hl in Hli. done.
Qed.

(** ** Incoming messages *)

Lemma onNetMessage_not_running s (bytes : list byte) :
  Lockstep.isRunning s = false ->
  Lockstep.onNetMessage bytes s = (Return [], s).
Proof. intros Hrun. run_M. by rewrite Hrun. Qed.

Lemma onNetMessage_decode_error s (bytes : list byte) (e : JsError) :
  Lockstep.isRunning s = true ->
  WireMsg.decode bytes = Throw e ->
  Lockstep.onNetMessage bytes s
  = (Return [],
     Lockstep.set_console
       (cons ("Failed to process network message:" +:+ " "
              +:+ Lockstep.error_message e)) s).
Proof.
  intros Hrun Hdec. run_M. rewrite Hrun. cbn beta iota delta [negb].
  by rewrite Hdec.
Qed.

Lemma onNetMessage_input_pair s (bytes : list byte) (p : InputPair) :
  Lockstep.isRunning s = true ->
  WireMsg.decode bytes = Return (WireMsg.input_pair p) ->
  Lockstep.onNetMessage bytes s
  = (Return [],
     Lockstep.set_remoteInputBuffer
       (insert (tick p) (Lockstep.remote_field (Lockstep.localSide s) p)) s).
Proof.
  intros Hrun Hdec. run_M. rewrite Hrun. cbn beta iota delta [negb].
  rewrite Hdec. cbn beta iota.
  by destruct (Lockstep.localSide s).
Qed.

Lemma onNetMessage_snapshot s (payload : list byte) :
  Lockstep.isRunning s = true ->
  let c' := restoreBytes (Lockstep.core s) payload in
  Lockstep.onNetMessage (x02 :: payload) s
  = (Return [snapshot_received (getCurrentTick c')],
     Lockstep.set_currentTick (fun _ => getCurrentTick c')
       (Lockstep.set_core (fun _ => c') s)).
Proof.
  intros Hrun c'. run_M. rewrite Hrun. cbn beta iota delta [negb].
  reflexivity.
Qed.

(** C6. A snapshot message (tag 0x02, then the payload) delivered to a
    running engine restores the core from the payload bytes and then sets
    the cursor to the tick the restored core reports; nothing else of the
    engine changes, and a [snapshot_received] event with that tick is
    returned. *)
Theorem snapshot_restores_and_resyncs s (payload : list byte) :
  Lockstep.isRunning s = true ->
  let s' := (Lockstep.onNetMessage (x02 :: payload) s).2 in
  Lockstep.core s' = restoreBytes (Lockstep.core s) payload
  /\ Lockstep.currentTick s' = getCurrentTick (Lockstep.core s')
  /\ (Lockstep.onNetMessage (x02 :: payload) s).1
     = Return [snapshot_received (getCurrentTick (Lockstep.core s'))]
  /\ Lockstep.transport s' = Lockstep.transport s
  /\ Lockstep.localInputBuffer s' = Lockstep.localInputBuffer s
  /\ Lockstep.remoteInputBuffer s' = Lockstep.remoteInputBuffer s
  /\ Lockstep.isRunning s' = true.
Proof.
  intros Hrun s'. subst s'. rewrite (onNetMessage_snapshot s payload Hrun).
  simpl. by rewrite Hrun.
Qed.

(** C7. Bytes that [decode] rejects, delivered to a running engine, are
    dropped: [onNetMessage] returns normally with no event, the failure is
    written to the console, and the cursor, both buffers, the core and the
    transport are as before the call. *)
Theorem undecodable_message_is_discarded s (bytes : list byte) :
  Lockstep.isRunning s = true ->
  throws (WireMsg.decode bytes) ->
  let s' := (Lockstep.onNetMessage bytes s).2 in
  (Lockstep.onNetMessage bytes s).1 = Return []
  /\ Lockstep.currentTick s' = Lockstep.currentTick s
  /\ Lockstep.localInputBuffer s' = Lockstep.localInputBuffer s
  /\ Lockstep.remoteInputBuffer s' = Lockstep.remoteInputBuffer s
  /\ Lockstep.core s' = Lockstep.core s
  /\ Lockstep.transport s' = Lockstep.transport s
  /\ Lockstep.isRunning s' = true
  /\ exists line, Lockstep.console s' = line :: Lockstep.console s.
Proof.
  intros Hrun [e Hdec] s'. subst s'.
  rewrite (onNetMessage_decode_error s bytes e Hrun Hdec). simpl.
  rewrite Hrun. repeat split; eauto.
Qed.

(** C9. Two [InputPair] messages with the same tick and the same input in
    the sender's field, whatever they carry in the receiver's own field,
    take the engine from one state to one and the same state with the same
    result; a running engine stores the sender's field in the remote
    buffer under the message's tick and changes nothing else. *)
Theorem own_field_is_ignored s (bytes1 bytes2 : list byte) (p1 p2 : InputPair) :
  WireMsg.decode bytes1 = Return (WireMsg.input_pair p1) ->
  WireMsg.decode bytes2 = Return (WireMsg.input_pair p2) ->
  tick p1 = tick p2 ->
  Lockstep.remote_field (Lockstep.localSide s) p1
  = Lockstep.remote_field (Lockstep.localSide s) p2 ->
  Lockstep.onNetMessage bytes1 s = Lockstep.onNetMessage bytes2 s
  /\ (Lockstep.isRunning s = true ->
      (Lockstep.onNetMessage bytes1 s).2
      = Lockstep.set_remoteInputBuffer
          (insert (tick p1) (Lockstep.remote_field (Lockstep.localSide s) p1)) s).
Proof.
  intros Hd1 Hd2 Htick Hremote.
  destruct (Lockstep.isRunning s) eqn:Hrun.
  - rewrite (onNetMessage_input_pair s bytes1 p1 Hrun Hd1).
    rewrite (onNetMessage_input_pair s bytes2 p2 Hrun Hd2).
    rewrite Htick, Hremote. done.
  - rewrite !onNetMessage_not_running by done. done.
Qed.

(** C10. A fresh engine and a stopped one are not running, and bytes
    delivered while the engine is not running change nothing:
    the call returns no event and the whole state (buffers, cursor, core,
    transport and with it what has been sent) is the state before. *)
Theorem stopped_engine_ignores_messages :
  (forall (gameAdapter : C) (tr : T) tickHz side isTimekeeper,
     Lockstep.isRunning (Lockstep.new gameAdapter tr tickHz side isTimekeeper)
     = false)
  /\ (forall s, Lockstep.isRunning (Lockstep.stop s).2 = false)
  /\ (forall s (bytes : list byte),
        Lockstep.isRunning s = false ->
        Lockstep.onNetMessage bytes s = (Return [], s)).
Proof.
  split; [done|]. split; [done|]. intros s bytes. apply onNetMessage_not_running.
Qed.

(** ** Local input *)

Lemma onLocalInput_running s (axisY btns : Z) :
  Lockstep.isRunning s = true ->
  let input := {| axis_y := axisY; buttons := btns |} in
  let zero := {| axis_y := 0; buttons := 0 |} in
  let pair :=
    {| tick := Lockstep.currentTick s;
       a := if decide (Lockstep.localSide s = Left) then input else zero;
       b := if decide (Lockstep.localSide s = Left) then zero else input |} in
  let sent := send (Lockstep.transport s) (WireMsg.encodeInputPair pair) in
  let s1 :=
    Lockstep.set_transport (fun _ => sent.2)
      (Lockstep.set_localInputBuffer (insert (Lockstep.currentTick s) input) s) in
  Lockstep.onLocalInput axisY btns s
  = (Return (),
     match sent.1 with
     | Return _ => s1
     | Throw e =>
         Lockstep.set_console
           (cons ("Failed to send input:" +:+ " " +:+ Lockstep.error_message e)) s1
     end).
Proof.
  intros Hrun input zero pair sent s1. subst s1 sent pair zero input.
  run_M. rewrite Hrun. cbn beta iota delta [negb]. simpl.
  destruct (send _ _) as [[[]|e] tr']; reflexivity.
Qed.

(** What [onLocalInput] does on a running engine.  It returns normally;
    the local buffer's entry for the current tick becomes the submitted
    input, replacing an entry already there; the remote buffer, the cursor
    and the core stay as they are; and one [InputPair] message is handed to
    the transport whether or not an entry was there, with the cursor as its
    tick, the submitted input in the local side's field and zero in the
    other. *)
Theorem onLocalInput_records_and_sends s (axisY btns : Z) :
  Lockstep.isRunning s = true ->
  let input := {| axis_y := axisY; buttons := btns |} in
  let s' := (Lockstep.onLocalInput axisY btns s).2 in
  (Lockstep.onLocalInput axisY btns s).1 = Return ()
  /\ Lockstep.localInputBuffer s'
     = <[Lockstep.currentTick s := input]> (Lockstep.localInputBuffer s)
  /\ Lockstep.remoteInputBuffer s' = Lockstep.remoteInputBuffer s
  /\ Lockstep.currentTick s' = Lockstep.currentTick s
  /\ Lockstep.core s' = Lockstep.core s
  /\ exists pair,
       tick pair = Lockstep.currentTick s
       /\ Lockstep.local_field (Lockstep.localSide s) pair = input
       /\ Lockstep.remote_field (Lockstep.localSide s) pair
          = {| axis_y := 0; buttons := 0 |}
       /\ Lockstep.transport s'
          = (send (Lockstep.transport s) (WireMsg.encodeInputPair pair)).2.
Proof.
  intros Hrun input s'. subst s'.
  rewrite (onLocalInput_running s axisY btns Hrun). cbv zeta.
  destruct (send _ _) as [[[]|e] tr'] eqn:Hsend; simpl;
    (repeat (split; [done|]); eexists; rewrite Hsend;
     destruct (Lockstep.localSide s); simpl; done).
Qed.

(** ** Ping, snapshot push *)

Lemma onNetMessage_ping s (bytes : list byte) (ts : Z) :
  Lockstep.isRunning s = true ->
  WireMsg.decode bytes = Return (WireMsg.ping ts) ->
  let sent := send (Lockstep.transport s) (WireMsg.encodePing ts) in
  let s1 := Lockstep.set_transport (fun _ => sent.2) s in
  Lockstep.onNetMessage bytes s
  = (Return [],
     match sent.1 with
     | Return _ => s1
     | Throw e =>
         Lockstep.set_console
           (cons ("Failed to send pong:" +:+ " " +:+ Lockstep.error_message e)) s1
     end).
Proof.
  intros Hrun Hdec sent s1. subst s1 sent.
  run_M. rewrite Hrun. cbn beta iota delta [negb]. rewrite Hdec. cbn beta iota.
  destruct (send _ _) as [[[]|e] tr']; reflexivity.
Qed.

Lemma requestSnapshot_running s :
  Lockstep.isRunning s = true ->
  let sent :=
    send (Lockstep.transport s)
         (WireMsg.encodeSnapshot (snapshotBytes (Lockstep.core s))) in
  let s1 := Lockstep.set_transport (fun _ => sent.2) s in
  Lockstep.requestSnapshot s
  = (Return (),
     match sent.1 with
     | Return _ => s1
     | Throw e =>
         Lockstep.set_console
           (cons ("Failed to send snapshot:" +:+ " " +:+ Lockstep.error_message e)) s1
     end).
Proof.
  intros Hrun sent s1. subst s1 sent.
  run_M. rewrite Hrun. cbn beta iota delta [negb].
  destruct (send _ _) as [[[]|e] tr']; reflexivity.
Qed.

Lemma ping_running s (now : Z) :
  Lockstep.isRunning s = true ->
  let sent := send (Lockstep.transport s) (WireMsg.encodePing now) in
  let s1 := Lockstep.set_transport (fun _ => sent.2) s in
  Lockstep.ping now s
  = (Return (),
     match sent.1 with
     | Return _ => s1
     | Throw e =>
         Lockstep.set_console
           (cons ("Failed to send ping:" +:+ " " +:+ Lockstep.error_message e)) s1
     end).
Proof.
  intros Hrun sent s1. subst s1 sent.
  run_M. rewrite Hrun. cbn beta iota delta [negb].
  destruct (send _ _) as [[[]|e] tr']; reflexivity.
Qed.

Lemma encodePing_of_decoded (bytes : list byte) (ts : Z) :
  WireMsg.decode bytes = Return (WireMsg.ping ts) -> WireMsg.encodePing ts = bytes.
Proof.
  intros Hdec.
  destruct (decode_inv _ _ Hdec)
    as [(t0 & t1 & t2 & t3 & aa & ab & ba & bb & -> & Hm)
       |[(payload & -> & Hm)|(t0 & t1 & t2 & t3 & -> & Hm)]];
    [discriminate..|].
  inversion Hm; subst ts. rewrite encodePing_bytes. cbv zeta.
  by destruct (setUint32_of_bytes t0 t1 t2 t3) as (-> & -> & -> & ->).
Qed.

(** X3. A ping delivered to a running engine is answered with a pong that
    is, byte for byte, the ping received: these bytes are handed to the
    transport once, no event is returned, and the simulation, the cursor and
    both buffers are untouched, also when the send fails. *)
Theorem ping_is_echoed s (bytes : list byte) (ts : Z) :
  Lockstep.isRunning s = true ->
  WireMsg.decode bytes = Return (WireMsg.ping ts) ->
  let s' := (Lockstep.onNetMessage bytes s).2 in
  (Lockstep.onNetMessage bytes s).1 = Return []
  /\ Lockstep.transport s' = (send (Lockstep.transport s) bytes).2
  /\ Lockstep.same_simulation s s'
  /\ Lockstep.localInputBuffer s' = Lockstep.localInputBuffer s
  /\ Lockstep.remoteInputBuffer s' = Lockstep.remoteInputBuffer s.
Proof.
  intros Hrun Hdec s'. subst s'.
  rewrite (onNetMessage_ping s bytes ts Hrun Hdec). cbv zeta.
  rewrite (encodePing_of_decoded bytes ts Hdec).
  unfold Lockstep.same_simulation.
  destruct (send _ _) as [[[]|e] tr']; simpl; done.
Qed.

(** X4. [requestSnapshot] asks the peer for nothing: on a running engine it
    sends the engine's own snapshot, one message, and keeps its own core,
    cursor and buffers; a running peer that receives this message has its
    core restored from the sender's snapshot bytes and its cursor set to
    the tick of the restored core, its buffers kept as they are. *)
Theorem snapshot_push_overwrites_peer (sA sB : Lockstep.t C T) :
  Lockstep.isRunning sA = true ->
  Lockstep.isRunning sB = true ->
  let msg := WireMsg.encodeSnapshot (snapshotBytes (Lockstep.core sA)) in
  let sA' := (Lockstep.requestSnapshot sA).2 in
  let sB' := (Lockstep.onNetMessage msg sB).2 in
  (Lockstep.requestSnapshot sA).1 = Return ()
  /\ Lockstep.transport sA' = (send (Lockstep.transport sA) msg).2
  /\ Lockstep.same_simulation sA sA'
  /\ Lockstep.localInputBuffer sA' = Lockstep.localInputBuffer sA
  /\ Lockstep.remoteInputBuffer sA' = Lockstep.remoteInputBuffer sA
  /\ Lockstep.core sB'
     = restoreBytes (Lockstep.core sB) (snapshotBytes (Lockstep.core sA))
  /\ Lockstep.currentTick sB' = getCurrentTick (Lockstep.core sB')
  /\ Lockstep.localInputBuffer sB' = Lockstep.localInputBuffer sB
  /\ Lockstep.remoteInputBuffer sB' = Lockstep.remoteInputBuffer sB.
Proof.
  intros HrunA HrunB msg sA' sB'. subst sA' sB' msg.
  rewrite (requestSnapshot_running sA HrunA). cbv zeta.
  rewrite encodeSnapshot_bytes, (onNetMessage_snapshot sB _ HrunB).
  unfold Lockstep.same_simulation.
  destruct (send _ _) as [[[]|e] tr']; simpl; done.
Qed.

(** ** Exceptions *)

Lemma onNetMessage_returns s (bytes : list byte) :
  returns (Lockstep.onNetMessage bytes s).1.
Proof.
  destruct (Lockstep.isRunning s) eqn:Hrun.
  - destruct (WireMsg.decode bytes) as [[p|d|ts]|e] eqn:Hdec.
    + rewrite (onNetMessage_input_pair s bytes p Hrun Hdec). by eexists.
    + destruct (decode_inv _ _ Hdec)
        as [(t0 & t1 & t2 & t3 & aa & ab & ba & bb & -> & Hm)
           |[(payload & -> & Hm)|(t0 & t1 & t2 & t3 & -> & Hm)]];
        [discriminate| |discriminate].
      rewrite (onNetMessage_snapshot s payload Hrun). by eexists.
    + rewrite (onNetMessage_ping s bytes ts Hrun Hdec). by eexists.
    + rewrite (onNetMessage_decode_error s bytes e Hrun Hdec). by eexists.
  - rewrite (onNetMessage_not_running s bytes Hrun). by eexists.
Qed.

Lemma tick_returns s : returns (Lockstep.tick JSON_parse s).1.
Proof.
  destruct (Lockstep.isRunning s) eqn:Hrun.
  - destruct (Lockstep.localInputBuffer s !! Lockstep.currentTick s) as [li|] eqn:Hl;
      [destruct (Lockstep.remoteInputBuffer s !! Lockstep.currentTick s) as [ri|] eqn:Hr|].
    + destruct (tick_advance s li ri Hrun Hl Hr) as [evs ->]. by eexists.
    + rewrite (tick_stalled s Hrun) by (right; done). by eexists.
    + rewrite (tick_stalled s Hrun) by (left; done). by eexists.
  - rewrite (tick_not_running s Hrun). by eexists.
Qed.

Lemma start_result s :
  Lockstep.start s
  = if isOpen (Lockstep.transport s)
    then (Return (),
          Lockstep.mk (Lockstep.core s) (Lockstep.transport s)
            (getCurrentTick (Lockstep.core s)) (Lockstep.localSide s) true ∅ ∅
            (Lockstep.console s))
    else (Throw (Error "Transport not connected"), s).
Proof. run_M. by destruct (isOpen _). Qed.

Lemma onLocalInput_not_running s (axisY btns : Z) :
  Lockstep.isRunning s = false ->
  Lockstep.onLocalInput axisY btns s = (Throw (Error "Lockstep not running"), s).
Proof. intros Hrun. run_M. by rewrite Hrun. Qed.

Lemma requestSnapshot_not_running s :
  Lockstep.isRunning s = false ->
  Lockstep.requestSnapshot s = (Throw (Error "Lockstep not running"), s).
Proof. intros Hrun. run_M. by rewrite Hrun. Qed.

Lemma ping_not_running s (now : Z) :
  Lockstep.isRunning s = false ->
  Lockstep.ping now s = (Throw (Error "Lockstep not running"), s).
Proof. intros Hrun. run_M. by rewrite Hrun. Qed.

(** X5. The exceptions of the engine.  [onNetMessage], [tick] and [stop]
    never throw, whatever the bytes and whatever the transport does.
    [start] throws exactly when the transport is not open; [onLocalInput],
    [requestSnapshot] and [ping] throw exactly when the engine is not
    running, a failing send included in the normal returns.  A call that
    throws leaves the engine as it was. *)
Theorem methods_throw_only_when_refusing s :
  (forall bytes, returns (Lockstep.onNetMessage bytes s).1)
  /\ returns (Lockstep.tick JSON_parse s).1
  /\ (Lockstep.stop s).1 = Return ()
  /\ Lockstep.start s
     = (if isOpen (Lockstep.transport s)
        then (Return (), (Lockstep.start s).2)
        else (Throw (Error "Transport not connected"), s))
  /\ (forall axisY btns,
        Lockstep.onLocalInput axisY btns s
        = if Lockstep.isRunning s
          then (Return (), (Lockstep.onLocalInput axisY btns s).2)
          else (Throw (Error "Lockstep not running"), s))
  /\ Lockstep.requestSnapshot s
     = (if Lockstep.isRunning s
        then (Return (), (Lockstep.requestSnapshot s).2)
        else (Throw (Error "Lockstep not running"), s))
  /\ (forall now,
        Lockstep.ping now s
        = if Lockstep.isRunning s
          then (Return (), (Lockstep.ping now s).2)
          else (Throw (Error "Lockstep not running"), s)).
Proof.
  split; [apply onNetMessage_returns|]. split; [apply tick_returns|].
  split; [done|].
  split; [rewrite start_result; by destruct (isOpen _)|].
  destruct (Lockstep.isRunning s) eqn:Hrun.
  - split; [intros axisY btns; by rewrite (onLocalInput_running s axisY btns Hrun)|].
    split; [by rewrite (requestSnapshot_running s Hrun)|].
    intros now. by rewrite (ping_running s now Hrun).
  - split; [intros axisY btns; by apply onLocalInput_not_running|].
    split; [by apply requestSnapshot_not_running|].
    intros now. by apply ping_not_running.
Qed.

(** X6. [start] on an open transport forgets the past: the engine runs,
    the cursor is the core's tick, both buffers are empty, core and
    transport are untouched.  A drive call right after it changes nothing,
    a second [start] changes nothing, and [stop] followed by [start] ends
    in the same state as [start] alone.  [stop] twice is [stop] once. *)
Theorem start_forgets_the_past s :
  isOpen (Lockstep.transport s) = true ->
  let s1 := (Lockstep.start s).2 in
  Lockstep.isRunning s1 = true
  /\ Lockstep.currentTick s1 = getCurrentTick (Lockstep.core s)
  /\ Lockstep.getBufferInfo s1 = Lockstep.mkBufferInfo 0 0
  /\ Lockstep.core s1 = Lockstep.core s
  /\ Lockstep.transport s1 = Lockstep.transport s
  /\ (Lockstep.tick JSON_parse s1).2 = s1
  /\ (Lockstep.start s1).2 = s1
  /\ (Lockstep.start (Lockstep.stop s).2).2 = s1
  /\ (Lockstep.stop (Lockstep.stop s).2).2 = (Lockstep.stop s).2.
Proof.
  intros Hopen s1. subst s1. rewrite !start_result. simpl.
  rewrite Hopen. simpl. rewrite Hopen. simpl.
  repeat split.
Qed.

(** ** What the remote buffer can hold *)

Lemma uint32_of_bytes_range (t0 t1 t2 t3 : byte) :
  0 <= uint32_of_bytes t0 t1 t2 t3 < 2 ^ 32.
Proof.
  unfold uint32_of_bytes.
  pose proof (byte_to_Z_range t0). pose proof (byte_to_Z_range t1).
  pose proof (byte_to_Z_range t2). pose proof (byte_to_Z_range t3).
  rewrite !Z.shiftl_mul_pow2 by lia.
  change (2 ^ 8) with 256. change (2 ^ 16) with 65536.
  change (2 ^ 24) with 16777216. change (2 ^ 32) with 4294967296. lia.
Qed.

Lemma fits_wire_of_bytes (x y : byte) :
  fits_wire {| axis_y := int8_of_byte x; buttons := byte_to_Z y |}.
Proof.
  unfold fits_wire, int8_of_byte. simpl.
  pose proof (byte_to_Z_range x). pose proof (byte_to_Z_range y).
  destruct (Z.leb_spec 128 (byte_to_Z x)); lia.
Qed.

Lemma decoded_pair_in_wire_range (bytes : list byte) (p : InputPair) :
  WireMsg.decode bytes = Return (WireMsg.input_pair p) ->
  0 <= tick p < 2 ^ 32 /\ fits_wire (a p) /\ fits_wire (b p).
Proof.
  intros Hdec.
  destruct (decode_inv _ _ Hdec)
    as [(t0 & t1 & t2 & t3 & aa & ab & ba & bb & -> & Hm)
       |[(payload & -> & Hm)|(t0 & t1 & t2 & t3 & -> & Hm)]];
    [|discriminate..].
  inversion Hm; subst p. simpl.
  auto using uint32_of_bytes_range, fits_wire_of_bytes.
Qed.

Lemma onNetMessage_remote_buffer s (bytes : list byte) :
  Lockstep.remoteInputBuffer (Lockstep.onNetMessage bytes s).2
  = Lockstep.remoteInputBuffer s
  \/ exists p,
       WireMsg.decode bytes = Return (WireMsg.input_pair p)
       /\ Lockstep.remoteInputBuffer (Lockstep.onNetMessage bytes s).2
          = <[tick p := Lockstep.remote_field (Lockstep.localSide s) p]>
              (Lockstep.remoteInputBuffer s).
Proof.
  destruct (Lockstep.isRunning s) eqn:Hrun.
  - destruct (WireMsg.decode bytes) as [[p|d|ts]|e] eqn:Hdec.
    + right. exists p. by rewrite (onNetMessage_input_pair s bytes p Hrun Hdec).
    + left.
      destruct (decode_inv _ _ Hdec)
        as [(t0 & t1 & t2 & t3 & aa & ab & ba & bb & -> & Hm)
           |[(payload & -> & Hm)|(t0 & t1 & t2 & t3 & -> & Hm)]];
        [discriminate| |discriminate].
      by rewrite (onNetMessage_snapshot s payload Hrun).
    + left. rewrite (onNetMessage_ping s bytes ts Hrun Hdec). cbv zeta.
      by destruct (send _ _) as [[[]|e] tr'].
    + left. by rewrite (onNetMessage_decode_error s bytes e Hrun Hdec).
  - left. by rewrite (onNetMessage_not_running s bytes Hrun).
Qed.

Ltac remote_frame :=
  let IHr := fresh "IHr" in
  let tkr := fresh "tkr" in
  let ir := fresh "ir" in
  let Hlook := fresh "Hlook" in
  intros IHr tkr ir Hlook; simpl in Hlook;
  first [ by apply (IHr tkr ir)
        | by rewrite lookup_empty in Hlook
        | apply lookup_delete_Some in Hlook; destruct Hlook as [_ Hlook];
          by apply (IHr tkr ir) ].

Lemma reachable_remote_in_wire_range s :
  Lockstep.reachable JSON_parse s -> Lockstep.remote_in_wire_range s.
Proof.
  unfold Lockstep.remote_in_wire_range.
  induction 1 as [ | s Hs IH | s Hs IH | s ax bt Hs IH | s bytes Hs IH
                 | s Hs IH | s Hs IH | s now Hs IH | s c' tr' Hs IH ].
  - intros tk i Hlook. simpl in Hlook. by rewrite lookup_empty in Hlook.
  - revert IH. rewrite start_result. destruct (isOpen _); remote_frame.
  - intros tk i Hlook. simpl in Hlook. by rewrite lookup_empty in Hlook.
  - revert IH. run_M. repeat (case_match; simplify_eq/=); remote_frame.
  - destruct (onNetMessage_remote_buffer s bytes) as [->|(p & Hdec & ->)]; [done|].
    destruct (decoded_pair_in_wire_range bytes p Hdec) as (Htick & Ha & Hb).
    intros tk i Hlook. apply lookup_insert_Some in Hlook.
    destruct Hlook as [[<- <-]|[_ Hlook]]; [|by apply (IH tk i)].
    split; [done|]. by destruct (Lockstep.localSide s).
  - revert IH. run_M. repeat (case_match; simplify_eq/=); remote_frame.
  - revert IH. run_M. repeat (case_match; simplify_eq/=); remote_frame.
  - revert IH. run_M. repeat (case_match; simplify_eq/=); remote_frame.
  - done.
Qed.

(** X7. In every reachable state each entry of the remote buffer sits
    under a [u32] tick and holds an axis in [-128, 127] and a button value
    in [0, 255]: the remote buffer is written from decoded messages only.
    So once the cursor is outside the [u32] range no drive call can step
    the simulation any more. *)
Theorem remote_buffer_holds_wire_values s :
  Lockstep.reachable JSON_parse s ->
  Lockstep.remote_in_wire_range s
  /\ (~ 0 <= Lockstep.currentTick s < 2 ^ 32 ->
      forall n : nat, Lockstep.ticks JSON_parse n s = s).
Proof.
  intros Hreach.
  pose proof (reachable_remote_in_wire_range s Hreach) as Hrange.
  split; [done|]. intros Hout n.
  destruct (Lockstep.isRunning s) eqn:Hrun; [|by apply ticks_not_running].
  apply ticks_stalled; [done|]. right.
  destruct (Lockstep.remoteInputBuffer s !! Lockstep.currentTick s) as [i|] eqn:Hl;
    [|done].
  destruct (Hrange _ _ Hl) as [Htick _]. done.
Qed.

(** ** Two peers *)

Lemma onLocalInput_fields s (axisY btns : Z) :
  Lockstep.isRunning s = true ->
  let input := {| axis_y := axisY; buttons := btns |} in
  let zero := {| axis_y := 0; buttons := 0 |} in
  let pair :=
    {| tick := Lockstep.currentTick s;
       a := if decide (Lockstep.localSide s = Left) then input else zero;
       b := if decide (Lockstep.localSide s = Left) then zero else input |} in
  let s' := (Lockstep.onLocalInput axisY btns s).2 in
  Lockstep.same_simulation s s'
  /\ Lockstep.localInputBuffer s'
     = <[Lockstep.currentTick s := input]> (Lockstep.localInputBuffer s)
  /\ Lockstep.remoteInputBuffer s' = Lockstep.remoteInputBuffer s
  /\ Lockstep.transport s'
     = (send (Lockstep.transport s) (WireMsg.encodeInputPair pair)).2.
Proof.
  intros Hrun input zero pair s'. subst s'.
  rewrite (onLocalInput_running s axisY btns Hrun). cbv zeta.
  unfold Lockstep.same_simulation.
  destruct (send _ _) as [[[]|e] tr']; simpl; done.
Qed.

Lemma exchange_then_tick s (x : Input) (bytes : list byte) (p : InputPair) :
  Lockstep.isRunning s = true ->
  WireMsg.decode bytes = Return (WireMsg.input_pair p) ->
  tick p = Lockstep.currentTick s ->
  let side := Lockstep.localSide s in
  let y := Lockstep.remote_field side p in
  let aInput := if decide (side = Left) then x else y in
  let bInput := if decide (side = Left) then y else x in
  let s1 := (Lockstep.onLocalInput (axis_y x) (buttons x) s).2 in
  let s2 := (Lockstep.onNetMessage bytes s1).2 in
  let s3 := (Lockstep.tick JSON_parse s2).2 in
  Lockstep.currentTick s3 = Lockstep.currentTick s + 1
  /\ Lockstep.core s3
     = (step (Lockstep.core s) (Lockstep.currentTick s)
             (axis_y aInput) (buttons aInput) (axis_y bInput) (buttons bInput)).2
  /\ Lockstep.localInputBuffer s3
     = delete (Lockstep.currentTick s) (Lockstep.localInputBuffer s)
  /\ Lockstep.remoteInputBuffer s3
     = delete (Lockstep.currentTick s) (Lockstep.remoteInputBuffer s).
Proof.
  intros Hrun Hdec Htick side y aInput bInput s1 s2 s3.
  destruct (onLocalInput_fields s (axis_y x) (buttons x) Hrun)
    as ((Hcore1 & Hcur1 & Hside1 & Hrun1) & Hl1 & Hr1 & _).
  fold s1 in Hcore1, Hcur1, Hside1, Hrun1, Hl1, Hr1.
  rewrite Hrun in Hrun1.
  assert (Hs2 : s2 = Lockstep.set_remoteInputBuffer
                       (insert (tick p) (Lockstep.remote_field (Lockstep.localSide s1) p)) s1).
  { subst s2. by rewrite (onNetMessage_input_pair s1 bytes p Hrun1 Hdec). }
  assert (Hl2 : Lockstep.localInputBuffer s2 !! Lockstep.currentTick s2 = Some x).
  { rewrite Hs2. simpl. rewrite Hl1, Hcur1. destruct x. apply lookup_insert_eq. }
  assert (Hr2 : Lockstep.remoteInputBuffer s2 !! Lockstep.currentTick s2 = Some y).
  { rewrite Hs2. simpl. rewrite Htick, Hcur1, Hside1. apply lookup_insert_eq. }
  assert (Hrun2 : Lockstep.isRunning s2 = true) by (by rewrite Hs2).
  destruct (tick_advance s2 x y Hrun2 Hl2 Hr2) as [evs Hadv].
  subst s3. rewrite Hadv. simpl. unfold Lockstep.step_with.
  rewrite Hl2, Hr2. rewrite Hs2. simpl.
  rewrite Hcur1, Hside1, Hcore1, Hl1, Hr1, Htick.
  rewrite !delete_insert_eq. done.
Qed.

(** X8. Two running peers, one on each side, at the same [u32] tick, each
    submit an input that fits the wire slots and receive the message the
    other's [onLocalInput] hands to its transport.  The next drive call of
    either peer steps its core with the same tick and the same two inputs,
    the left peer's as [a] and the right peer's as [b], and moves its
    cursor up by one. *)
Theorem peers_step_with_the_same_inputs (sL sR : Lockstep.t C T) (x y : Input) :
  Lockstep.isRunning sL = true -> Lockstep.isRunning sR = true ->
  Lockstep.localSide sL = Left -> Lockstep.localSide sR = Right ->
  Lockstep.currentTick sR = Lockstep.currentTick sL ->
  0 <= Lockstep.currentTick sL < 2 ^ 32 ->
  fits_wire x -> fits_wire y ->
  let tk := Lockstep.currentTick sL in
  let zero := {| axis_y := 0; buttons := 0 |} in
  let mL := WireMsg.encodeInputPair {| tick := tk; a := x; b := zero |} in
  let mR := WireMsg.encodeInputPair {| tick := tk; a := zero; b := y |} in
  let sL1 := (Lockstep.onLocalInput (axis_y x) (buttons x) sL).2 in
  let sR1 := (Lockstep.onLocalInput (axis_y y) (buttons y) sR).2 in
  let sL2 := (Lockstep.tick JSON_parse (Lockstep.onNetMessage mR sL1).2).2 in
  let sR2 := (Lockstep.tick JSON_parse (Lockstep.onNetMessage mL sR1).2).2 in
  Lockstep.transport sL1 = (send (Lockstep.transport sL) mL).2
  /\ Lockstep.transport sR1 = (send (Lockstep.transport sR) mR).2
  /\ Lockstep.core sL2
     = (step (Lockstep.core sL) tk (axis_y x) (buttons x) (axis_y y) (buttons y)).2
  /\ Lockstep.core sR2
     = (step (Lockstep.core sR) tk (axis_y x) (buttons x) (axis_y y) (buttons y)).2
  /\ Lockstep.currentTick sL2 = tk + 1
  /\ Lockstep.currentTick sR2 = tk + 1.
Proof.
  intros HrunL HrunR HsideL HsideR Hcur Htk Hx Hy tk zero mL mR sL1 sR1 sL2 sR2.
  assert (Hzero : fits_wire zero) by (unfold fits_wire; simpl; lia).
  assert (HmL : WireMsg.decode mL
                = Return (WireMsg.input_pair {| tick := tk; a := x; b := zero |})).
  { subst mL. rewrite decode_encodeInputPair. unfold wire_pair. simpl.
    rewrite !wire_input_fits by done. unfold ToUint32.
    by rewrite Z.mod_small by done. }
  assert (HmR : WireMsg.decode mR
                = Return (WireMsg.input_pair {| tick := tk; a := zero; b := y |})).
  { subst mR. rewrite decode_encodeInputPair. unfold wire_pair. simpl.
    rewrite !wire_input_fits by done. unfold ToUint32.
    by rewrite Z.mod_small by done. }
  destruct (onLocalInput_fields sL (axis_y x) (buttons x) HrunL) as (_ & _ & _ & HtrL).
  destruct (onLocalInput_fields sR (axis_y y) (buttons y) HrunR) as (_ & _ & _ & HtrR).
  rewrite HsideL in HtrL. rewrite HsideR, Hcur in HtrR. simpl in HtrL, HtrR.
  destruct x as [xa xb], y as [ya yb]. simpl in *.
  destruct (exchange_then_tick sL (mkInput xa xb) mR _ HrunL HmR eq_refl)
    as (HcurL & HcoreL & _).
  destruct (exchange_then_tick sR (mkInput ya yb) mL _ HrunR HmL (eq_sym Hcur))
    as (HcurR & HcoreR & _).
  rewrite HsideL in HcoreL. rewrite HsideR, Hcur in HcoreR.
  simpl in HcoreL, HcoreR. rewrite Hcur in HcurR.
  done.
Qed.

Lemma decode_encodeInputPair_fits (tk : Z) (x y : Input) :
  0 <= tk < 2 ^ 32 -> fits_wire x -> fits_wire y ->
  WireMsg.decode (WireMsg.encodeInputPair {| tick := tk; a := x; b := y |})
  = Return (WireMsg.input_pair {| tick := tk; a := x; b := y |}).
Proof.
  intros Htk Hx Hy. rewrite decode_encodeInputPair. unfold wire_pair. simpl.
  rewrite !wire_input_fits by done. unfold ToUint32.
  by rewrite Z.mod_small by done.
Qed.

(** X20. Submitting twice for one tick can split the peers.  The left peer
    submits [x1] and, still waiting, submits [x2] for the same tick; the
    right peer receives the first message, has its own input [y] and
    drives.  The right core has then stepped the tick with [x1], and the
    left core, once the right peer's message is in, steps it with [x2]:
    the local buffer holds the last input submitted, the peer may have
    used the first. *)
Theorem resubmission_is_stepped_locally_only (sL sR : Lockstep.t C T) (x1 x2 y : Input) :
  Lockstep.isRunning sL = true -> Lockstep.isRunning sR = true ->
  Lockstep.localSide sL = Left -> Lockstep.localSide sR = Right ->
  Lockstep.currentTick sR = Lockstep.currentTick sL ->
  0 <= Lockstep.currentTick sL < 2 ^ 32 ->
  fits_wire x1 -> fits_wire x2 -> fits_wire y ->
  let tk := Lockstep.currentTick sL in
  let zero := {| axis_y := 0; buttons := 0 |} in
  let m1 := WireMsg.encodeInputPair {| tick := tk; a := x1; b := zero |} in
  let mR := WireMsg.encodeInputPair {| tick := tk; a := zero; b := y |} in
  let sL1 := (Lockstep.onLocalInput (axis_y x1) (buttons x1) sL).2 in
  let sL2 := (Lockstep.onLocalInput (axis_y x2) (buttons x2) sL1).2 in
  let sR1 := (Lockstep.onLocalInput (axis_y y) (buttons y) sR).2 in
  let sL' := (Lockstep.tick JSON_parse (Lockstep.onNetMessage mR sL2).2).2 in
  let sR' := (Lockstep.tick JSON_parse (Lockstep.onNetMessage m1 sR1).2).2 in
  Lockstep.transport sL1 = (send (Lockstep.transport sL) m1).2
  /\ Lockstep.core sR'
     = (step (Lockstep.core sR) tk (axis_y x1) (buttons x1) (axis_y y) (buttons y)).2
  /\ Lockstep.core sL'
     = (step (Lockstep.core sL) tk (axis_y x2) (buttons x2) (axis_y y) (buttons y)).2
  /\ Lockstep.currentTick sL' = tk + 1
  /\ Lockstep.currentTick sR' = tk + 1.
Proof.
  intros HrunL HrunR HsideL HsideR Hcur Htk Hx1 Hx2 Hy tk zero m1 mR sL1 sL2 sR1 sL' sR'.
  assert (Hzero : fits_wire zero) by (unfold fits_wire; simpl; lia).
  pose proof (decode_encodeInputPair_fits tk x1 zero Htk Hx1 Hzero) as Hm1.
  pose proof (decode_encodeInputPair_fits tk zero y Htk Hzero Hy) as HmR.
  fold m1 in Hm1. fold mR in HmR.
  destruct (onLocalInput_fields sL (axis_y x1) (buttons x1) HrunL)
    as ((Hcore1 & Hcur1 & Hside1 & Hrun1) & _ & _ & Htr1).
  fold sL1 in Hcore1, Hcur1, Hside1, Hrun1, Htr1.
  rewrite HrunL in Hrun1. rewrite HsideL in Htr1. simpl in Htr1.
  destruct x1 as [x1a x1b], x2 as [x2a x2b], y as [ya yb]. simpl in *.
  destruct (exchange_then_tick sL1 (mkInput x2a x2b) mR _ Hrun1 HmR (eq_sym Hcur1))
    as (HcurL & HcoreL & _).
  destruct (exchange_then_tick sR (mkInput ya yb) m1 _ HrunR Hm1 (eq_sym Hcur))
    as (HcurR & HcoreR & _).
  rewrite Hside1, HsideL, Hcur1, Hcore1 in HcoreL. rewrite HsideR, Hcur in HcoreR.
  simpl in HcoreL, HcoreR. rewrite Hcur1 in HcurL. rewrite Hcur in HcurR.
  done.
Qed.

(** ** What a drive call reports and what it leaves *)

(** X9. A drive call that steps the simulation returns the view of the
    core after the step and, if the step gave an event, one
    [game_advanced] event carrying that event and the tick that was
    stepped (the cursor before the call, not the new one); a step without
    an event and a call that cannot step report no event. *)
Theorem tick_reports_the_stepped_tick s :
  let cur := Lockstep.currentTick s in
  (forall li ri,
     Lockstep.isRunning s = true ->
     Lockstep.localInputBuffer s !! cur = Some li ->
     Lockstep.remoteInputBuffer s !! cur = Some ri ->
     let aInput := if decide (Lockstep.localSide s = Left) then li else ri in
     let bInput := if decide (Lockstep.localSide s = Left) then ri else li in
     let r := step (Lockstep.core s) cur (axis_y aInput) (buttons aInput)
                   (axis_y bInput) (buttons bInput) in
     (Lockstep.tick JSON_parse s).1
     = Return {| Lockstep.view := JSON_parse (viewJson r.2);
                 Lockstep.events :=
                   match r.1 with
                   | Some ev => [game_advanced cur [ev]]
                   | None => []
                   end |})
  /\ (Lockstep.isRunning s = false
      \/ Lockstep.localInputBuffer s !! cur = None
      \/ Lockstep.remoteInputBuffer s !! cur = None ->
      (Lockstep.tick JSON_parse s).1
      = Return {| Lockstep.view := JSON_parse (viewJson (Lockstep.core s));
                  Lockstep.events := [] |}).
Proof.
  intros cur. split.
  - intros li ri Hrun Hl Hr aInput bInput r. subst r aInput bInput cur.
    unfold_methods. unfold_M. cbn beta iota.
    rewrite Hrun. cbn beta iota delta [negb]. rewrite Hl, Hr. cbn beta iota.
    destruct (step _ _ _ _ _ _) as [[ev|] c'] eqn:Hstep; simpl; [|done].
    by rewrite Z.add_simpl_r.
  - intros [Hrun|Hnone].
    + by rewrite (tick_not_running s Hrun).
    + destruct (Lockstep.isRunning s) eqn:Hrun.
      * by rewrite (tick_stalled s Hrun Hnone).
      * by rewrite (tick_not_running s Hrun).
Qed.

Lemma tick_cases s :
  (Lockstep.tick JSON_parse s).2 = s
  \/ (Lockstep.currentTick (Lockstep.tick JSON_parse s).2 = Lockstep.currentTick s + 1
      /\ Lockstep.localInputBuffer (Lockstep.tick JSON_parse s).2
         = delete (Lockstep.currentTick s) (Lockstep.localInputBuffer s)
      /\ Lockstep.remoteInputBuffer (Lockstep.tick JSON_parse s).2
         = delete (Lockstep.currentTick s) (Lockstep.remoteInputBuffer s)).
Proof.
  destruct (Lockstep.isRunning s) eqn:Hrun.
  - destruct (Lockstep.localInputBuffer s !! Lockstep.currentTick s) as [li|] eqn:Hl;
      [destruct (Lockstep.remoteInputBuffer s !! Lockstep.currentTick s) as [ri|] eqn:Hr|].
    + right. destruct (tick_advance s li ri Hrun Hl Hr) as [evs ->]. done.
    + left. by rewrite (tick_stalled s Hrun) by (right; done).
    + left. by rewrite (tick_stalled s Hrun) by (left; done).
  - left. by rewrite (tick_not_running s Hrun).
Qed.

(** X10. Any number of drive calls moves the cursor forward only, by at
    most one tick a call, and removes buffer entries only for the ticks it
    has moved over: an entry for a tick behind the old cursor, or at or
    beyond the new one, stays as it is in either buffer. *)
Theorem ticks_touch_only_stepped_entries (n : nat) s :
  let s' := Lockstep.ticks JSON_parse n s in
  Lockstep.currentTick s <= Lockstep.currentTick s' <= Lockstep.currentTick s + Z.of_nat n
  /\ forall tk,
       tk < Lockstep.currentTick s \/ Lockstep.currentTick s' <= tk ->
       Lockstep.localInputBuffer s' !! tk = Lockstep.localInputBuffer s !! tk
       /\ Lockstep.remoteInputBuffer s' !! tk = Lockstep.remoteInputBuffer s !! tk.
Proof.
  revert s. induction n as [|n IH]; intros s s'.
  { subst s'. simpl. split; [lia|done]. }
  subst s'. change (Lockstep.ticks JSON_parse (S n) s)
    with (Lockstep.ticks JSON_parse n (Lockstep.tick JSON_parse s).2).
  destruct (IH (Lockstep.tick JSON_parse s).2) as [Hcur Hkeep].
  destruct (tick_cases s) as [Hsame|(Hadv & Hl & Hr)].
  - rewrite Hsame in *. split; [lia|done].
  - rewrite Hadv in Hcur. split; [lia|].
    intros tk Htk. destruct (Hkeep tk) as [Hkl Hkr]; [rewrite Hadv; lia|].
    rewrite Hkl, Hkr, Hl, Hr. rewrite !lookup_delete_ne by lia. done.
Qed.

(** ** What the other methods leave alone *)

Lemma onNetMessage_same_simulation s (bytes : list byte) :
  (forall payload, bytes <> x02 :: payload) ->
  Lockstep.same_simulation s (Lockstep.onNetMessage bytes s).2.
Proof.
  intros Hnot. unfold Lockstep.same_simulation.
  destruct (Lockstep.isRunning s) eqn:Hrun.
  - destruct (WireMsg.decode bytes) as [[p|d|ts]|e] eqn:Hdec.
    + by rewrite (onNetMessage_input_pair s bytes p Hrun Hdec).
    + destruct (decode_inv _ _ Hdec)
        as [(t0 & t1 & t2 & t3 & aa & ab & ba & bb & -> & Hm)
           |[(payload & -> & Hm)|(t0 & t1 & t2 & t3 & -> & Hm)]];
        [discriminate| |discriminate].
      by destruct (Hnot payload).
    + rewrite (onNetMessage_ping s bytes ts Hrun Hdec). cbv zeta.
      by destruct (send _ _) as [[[]|e] tr'].
    + by rewrite (onNetMessage_decode_error s bytes e Hrun Hdec).
  - by rewrite (onNetMessage_not_running s bytes Hrun).
Qed.

(** X11. The core, the cursor, the side and the running flag change only
    through [tick], [start], [stop] and the delivery of a snapshot:
    [onLocalInput], [requestSnapshot], [ping] and the delivery of any bytes
    that do not begin with the snapshot tag leave all four as they are,
    running or not, whether a send succeeds or fails; [stop] clears the
    flag and keeps core and cursor. *)
Theorem simulation_is_left_alone s :
  (forall axisY btns,
     Lockstep.same_simulation s (Lockstep.onLocalInput axisY btns s).2)
  /\ Lockstep.same_simulation s (Lockstep.requestSnapshot s).2
  /\ (forall now, Lockstep.same_simulation s (Lockstep.ping now s).2)
  /\ (forall bytes,
        (forall payload, bytes <> x02 :: payload) ->
        Lockstep.same_simulation s (Lockstep.onNetMessage bytes s).2)
  /\ Lockstep.core (Lockstep.stop s).2 = Lockstep.core s
  /\ Lockstep.currentTick (Lockstep.stop s).2 = Lockstep.currentTick s.
Proof.
  unfold Lockstep.same_simulation.
  split; [|split; [|split; [|split; [apply onNetMessage_same_simulation|done]]]].
  - intros axisY btns. destruct (Lockstep.isRunning s) eqn:Hrun.
    + rewrite (onLocalInput_running s axisY btns Hrun). cbv zeta.
      destruct (send _ _) as [[[]|e] tr']; simpl; by rewrite Hrun.
    + by rewrite (onLocalInput_not_running s axisY btns Hrun).
  - destruct (Lockstep.isRunning s) eqn:Hrun.
    + rewrite (requestSnapshot_running s Hrun). cbv zeta.
      destruct (send _ _) as [[[]|e] tr']; simpl; by rewrite Hrun.
    + by rewrite (requestSnapshot_not_running s Hrun).
  - intros now. destruct (Lockstep.isRunning s) eqn:Hrun.
    + rewrite (ping_running s now Hrun). cbv zeta.
      destruct (send _ _) as [[[]|e] tr']; simpl; by rewrite Hrun.
    + by rewrite (ping_not_running s now Hrun).
Qed.

(** ** Waiting, counting, and one pass of the game loop *)

Lemma isWaitingForRemote_true s :
  Lockstep.isWaitingForRemote s = true <->
  Lockstep.isRunning s = true
  /\ is_Some (Lockstep.localInputBuffer s !! Lockstep.currentTick s)
  /\ Lockstep.remoteInputBuffer s !! Lockstep.currentTick s = None.
Proof.
  unfold Lockstep.isWaitingForRemote.
  destruct (Lockstep.isRunning s); simpl; [|split; [done|by intros [? _]]].
  rewrite andb_true_iff, negb_true_iff, bool_decide_eq_true, bool_decide_eq_false.
  rewrite <- eq_None_not_Some. tauto.
Qed.

(** X12. [isWaitingForRemote] answers true exactly when the engine runs,
    has a local input for the current tick and has no remote input for it;
    then no number of drive calls changes anything.  Right after a local
    input is submitted to a running engine the answer is true exactly when
    the remote input for the current tick is missing, and when the answer
    is false the next drive call moves the cursor up by one. *)
Theorem waiting_for_remote_is_a_stall s :
  (Lockstep.isWaitingForRemote s = true <->
     Lockstep.isRunning s = true
     /\ is_Some (Lockstep.localInputBuffer s !! Lockstep.currentTick s)
     /\ Lockstep.remoteInputBuffer s !! Lockstep.currentTick s = None)
  /\ (Lockstep.isWaitingForRemote s = true ->
      forall n : nat, Lockstep.ticks JSON_parse n s = s)
  /\ (forall axisY btns,
        Lockstep.isRunning s = true ->
        let s1 := (Lockstep.onLocalInput axisY btns s).2 in
        (Lockstep.isWaitingForRemote s1 = true <->
           Lockstep.remoteInputBuffer s !! Lockstep.currentTick s = None)
        /\ (Lockstep.isWaitingForRemote s1 = false ->
            Lockstep.currentTick (Lockstep.tick JSON_parse s1).2
            = Lockstep.currentTick s + 1)).
Proof.
  split; [apply isWaitingForRemote_true|]. split.
  - intros Hwait n. apply isWaitingForRemote_true in Hwait.
    destruct Hwait as (Hrun & _ & Hnone). apply ticks_stalled; auto.
  - intros axisY btns Hrun s1.
    destruct (onLocalInput_fields s axisY btns Hrun)
      as ((_ & Hcur1 & _ & Hrun1) & Hl1 & Hr1 & _).
    fold s1 in Hcur1, Hrun1, Hl1, Hr1. rewrite Hrun in Hrun1.
    assert (Hl : Lockstep.localInputBuffer s1 !! Lockstep.currentTick s1
                 = Some {| axis_y := axisY; buttons := btns |}).
    { rewrite Hl1, Hcur1. apply lookup_insert_eq. }
    split.
    + rewrite isWaitingForRemote_true, Hl, Hr1, Hcur1, Hrun1.
      split; [by intros (_ & _ & ?)|intros; repeat split; eauto].
    + intros Hnot.
      destruct (Lockstep.remoteInputBuffer s1 !! Lockstep.currentTick s1)
        as [ri|] eqn:Hr.
      * destruct (tick_advance s1 _ ri Hrun1 Hl Hr) as [evs ->]. simpl. lia.
      * assert (Lockstep.isWaitingForRemote s1 = true)
          by (apply isWaitingForRemote_true; eauto).
        congruence.
Qed.

(** X13. The counts [getBufferInfo] reports.  Submitting a local input to
    a running engine adds one to the local count if the current tick had no
    entry and leaves it otherwise; an [InputPair] message does the same to
    the remote count for the message's tick; a drive call that steps takes
    one off each count; none of the three touches the other count. *)
Theorem buffer_counts s :
  Lockstep.isRunning s = true ->
  let info := Lockstep.getBufferInfo s in
  let cur := Lockstep.currentTick s in
  (forall axisY btns,
     Lockstep.getBufferInfo (Lockstep.onLocalInput axisY btns s).2
     = {| Lockstep.localCount :=
            match Lockstep.localInputBuffer s !! cur with
            | Some _ => Lockstep.localCount info
            | None => S (Lockstep.localCount info)
            end;
          Lockstep.remoteCount := Lockstep.remoteCount info |})
  /\ (forall bytes p,
        WireMsg.decode bytes = Return (WireMsg.input_pair p) ->
        Lockstep.getBufferInfo (Lockstep.onNetMessage bytes s).2
        = {| Lockstep.localCount := Lockstep.localCount info;
             Lockstep.remoteCount :=
               match Lockstep.remoteInputBuffer s !! tick p with
               | Some _ => Lockstep.remoteCount info
               | None => S (Lockstep.remoteCount info)
               end |})
  /\ (is_Some (Lockstep.localInputBuffer s !! cur) ->
      is_Some (Lockstep.remoteInputBuffer s !! cur) ->
      Lockstep.getBufferInfo s
      = {| Lockstep.localCount :=
             S (Lockstep.localCount (Lockstep.getBufferInfo (Lockstep.tick JSON_parse s).2));
           Lockstep.remoteCount :=
             S (Lockstep.remoteCount (Lockstep.getBufferInfo (Lockstep.tick JSON_parse s).2)) |}).
Proof.
  intros Hrun info cur. subst info cur. unfold Lockstep.getBufferInfo.
  split; [|split].
  - intros axisY btns.
    destruct (onLocalInput_fields s axisY btns Hrun) as (_ & -> & -> & _).
    rewrite map_size_insert. simpl.
    by destruct (Lockstep.localInputBuffer s !! Lockstep.currentTick s).
  - intros bytes p Hdec. rewrite (onNetMessage_input_pair s bytes p Hrun Hdec).
    simpl. rewrite map_size_insert.
    by destruct (Lockstep.remoteInputBuffer s !! tick p).
  - intros [li Hl] [ri Hr].
    destruct (tick_advance s li ri Hrun Hl Hr) as [evs ->]. simpl.
    rewrite !map_size_delete, Hl, Hr.
    pose proof (map_size_non_empty_iff (Lockstep.localInputBuffer s)) as Hnl.
    pose proof (map_size_non_empty_iff (Lockstep.remoteInputBuffer s)) as Hnr.
    assert (size (Lockstep.localInputBuffer s) <> 0%nat).
    { apply Hnl. intros Hempty. rewrite Hempty, lookup_empty in Hl. done. }
    assert (size (Lockstep.remoteInputBuffer s) <> 0%nat).
    { apply Hnr. intros Hempty. rewrite Hempty, lookup_empty in Hr. done. }
    f_equal; lia.
Qed.

(** X14. One pass of the networked game loop with the input due: on a
    running engine that holds the peer's input for the current tick,
    [onLocalInput] followed by [tick] steps the core once, at that tick,
    with the input just submitted on the local side (an older local entry
    for the tick is not used) and the buffered remote input on the other,
    retires both entries and moves the cursor up by one. *)
Theorem submit_then_drive s (x ri : Input) :
  Lockstep.isRunning s = true ->
  Lockstep.remoteInputBuffer s !! Lockstep.currentTick s = Some ri ->
  let cur := Lockstep.currentTick s in
  let aInput := if decide (Lockstep.localSide s = Left) then x else ri in
  let bInput := if decide (Lockstep.localSide s = Left) then ri else x in
  let s1 := (Lockstep.onLocalInput (axis_y x) (buttons x) s).2 in
  let s2 := (Lockstep.tick JSON_parse s1).2 in
  Lockstep.currentTick s2 = cur + 1
  /\ Lockstep.core s2
     = (step (Lockstep.core s) cur (axis_y aInput) (buttons aInput)
             (axis_y bInput) (buttons bInput)).2
  /\ Lockstep.localInputBuffer s2 = delete cur (Lockstep.localInputBuffer s)
  /\ Lockstep.remoteInputBuffer s2 = delete cur (Lockstep.remoteInputBuffer s).
Proof.
  intros Hrun Hri cur aInput bInput s1 s2.
  destruct (onLocalInput_fields s (axis_y x) (buttons x) Hrun)
    as ((Hcore1 & Hcur1 & Hside1 & Hrun1) & Hl1 & Hr1 & _).
  fold s1 in Hcore1, Hcur1, Hside1, Hrun1, Hl1, Hr1. rewrite Hrun in Hrun1.
  assert (Hl : Lockstep.localInputBuffer s1 !! Lockstep.currentTick s1 = Some x).
  { rewrite Hl1, Hcur1. destruct x. apply lookup_insert_eq. }
  assert (Hr : Lockstep.remoteInputBuffer s1 !! Lockstep.currentTick s1 = Some ri).
  { by rewrite Hr1, Hcur1. }
  destruct (tick_advance s1 x ri Hrun1 Hl Hr) as [evs Hadv].
  subst s2. rewrite Hadv. simpl. unfold Lockstep.step_with.
  rewrite Hl, Hr, Hcur1, Hside1, Hcore1, Hl1, Hr1.
  rewrite delete_insert_eq. done.
Qed.

End LockstepProps.

(** * Properties of the peer identifier helpers *)

Section PeerIds.

Import PeerIdUtils.

Ltac each_ascii c := destruct c as [[] [] [] [] [] [] [] []].

Lemma line_terminator_not_kept (c : ascii) :
  is_line_terminator c = true -> kept c = false.
Proof. each_ascii c; vm_compute; congruence. Qed.

Lemma kept_toLowerCase (c : ascii) : kept (toLowerCase_char c) = kept c.
Proof. each_ascii c; vm_compute; reflexivity. Qed.

Lemma toLowerCase_twice (c : ascii) :
  toLowerCase_char (toLowerCase_char c) = toLowerCase_char c.
Proof. each_ascii c; vm_compute; reflexivity. Qed.

Lemma toLowerCase_not_dash (c : ascii) :
  kept c = true -> toLowerCase_char c <> dash.
Proof. each_ascii c; vm_compute; congruence. Qed.

Lemma valid_cleaned_char_is_plain (c : ascii) :
  kept c = true -> is_id_char (toLowerCase_char c) = true ->
  is_plain_id_char (toLowerCase_char c) = true.
Proof. each_ascii c; vm_compute; congruence. Qed.

Lemma match_runs_concat (cur rest : list ascii) :
  concat (match_runs cur rest)
  = rev cur ++ List.filter (fun c => negb (is_line_terminator c)) rest.
Proof.
  revert cur. induction rest as [|c rest IH]; intros cur.
  - simpl. destruct cur; simpl; by rewrite ?app_nil_r.
  - simpl. destruct (is_line_terminator c); simpl.
    + destruct cur as [|c0 cur]; simpl; rewrite IH; simpl; by rewrite ?app_nil_r.
    + destruct (length cur =? 3)%nat; simpl; rewrite IH; simpl;
        by rewrite <- ?app_assoc.
Qed.

Lemma filter_kept_flat_map_dash (runs : list (list ascii)) :
  List.filter kept (flat_map (fun part => [dash] ++ part) runs)
  = List.filter kept (concat runs).
Proof.
  induction runs as [|r runs IH]; [done|].
  change (flat_map (fun part => [dash] ++ part) (r :: runs))
    with (([dash] ++ r) ++ flat_map (fun part => [dash] ++ part) runs).
  change (concat (r :: runs)) with (r ++ concat runs).
  rewrite !List.filter_app, IH. reflexivity.
Qed.

Lemma filter_kept_join_dash (runs : list (list ascii)) :
  List.filter kept (join [dash] runs) = List.filter kept (concat runs).
Proof.
  destruct runs as [|r runs]; [done|].
  unfold join. rewrite List.filter_app, filter_kept_flat_map_dash.
  simpl. by rewrite List.filter_app.
Qed.

Lemma filter_kept_without_line_terminators (l : list ascii) :
  List.filter kept (List.filter (fun c => negb (is_line_terminator c)) l)
  = List.filter kept l.
Proof.
  induction l as [|c l IH]; [done|]. simpl.
  destruct (is_line_terminator c) eqn:Hlt; simpl.
  - by rewrite (line_terminator_not_kept c Hlt).
  - by rewrite IH.
Qed.

Lemma cleanPeerId_formatPeerId (peerId : list ascii) :
  cleanPeerId (formatPeerId peerId) = cleanPeerId peerId.
Proof.
  unfold formatPeerId. destruct (8 <=? length peerId)%nat; [|done].
  destruct (match_runs [] peerId) as [|r runs] eqn:Hruns; [done|].
  destruct (join [dash] (r :: runs)) as [|j joined] eqn:Hjoin; [done|].
  unfold cleanPeerId. f_equal.
  rewrite <- Hjoin, filter_kept_join_dash, <- Hruns, match_runs_concat.
  simpl. apply filter_kept_without_line_terminators.
Qed.

Lemma cleanPeerId_length (l : list ascii) : (length (cleanPeerId l) <= length l)%nat.
Proof.
  unfold cleanPeerId. rewrite length_map.
  induction l as [|c l IH]; simpl; [lia|]. destruct (kept c); simpl; lia.
Qed.

Lemma cleanPeerId_fixed (l : list ascii) :
  cleanPeerId l = l <-> forallb clean_char l = true.
Proof.
  induction l as [|c l IH]; [done|].
  pose proof (cleanPeerId_length l) as Hlen.
  unfold cleanPeerId in *. simpl List.filter. simpl forallb.
  unfold clean_char at 1. rewrite !andb_true_iff, bool_decide_eq_true, <- IH.
  destruct (kept c) eqn:Hkept; simpl map.
  - split.
    + intros Heq. inversion Heq as [[Hc Hl]]. rewrite Hc. by rewrite Hl.
    + intros [[_ Hc] Hl]. by rewrite Hc, Hl.
  - split; [|by intros [[? _] _]].
    intros Heq. rewrite Heq in Hlen. simpl in Hlen. lia.
Qed.

(** X15. The identifier the host screen shows and the join screen reads
    back: cleaning a formatted identifier gives what cleaning the
    identifier itself gives, so the grouping dashes never get in the way;
    the identifier comes back unchanged exactly when it has no white space,
    no dash of its own and no capital letter. *)
Theorem format_then_clean (peerId : list ascii) :
  cleanPeerId (formatPeerId peerId) = cleanPeerId peerId
  /\ (cleanPeerId (formatPeerId peerId) = peerId
      <-> forallb clean_char peerId = true).
Proof.
  split; [apply cleanPeerId_formatPeerId|].
  rewrite cleanPeerId_formatPeerId. apply cleanPeerId_fixed.
Qed.

Lemma cleanPeerId_twice (input : list ascii) :
  cleanPeerId (cleanPeerId input) = cleanPeerId input.
Proof.
  apply cleanPeerId_fixed. unfold cleanPeerId.
  induction input as [|c l IH]; [done|]. simpl.
  destruct (kept c) eqn:Hkept; [|done]. simpl.
  rewrite IH, andb_true_r. unfold clean_char.
  rewrite kept_toLowerCase, Hkept. simpl.
  apply bool_decide_eq_true. apply toLowerCase_twice.
Qed.

Lemma cleanPeerId_no_dash (input : list ascii) : ~ In dash (cleanPeerId input).
Proof.
  unfold cleanPeerId. induction input as [|c l IH]; [by intros []|].
  simpl. destruct (kept c) eqn:Hkept; [|done].
  intros [Hc|Hin]; [|done]. by apply (toLowerCase_not_dash c).
Qed.

Lemma valid_cleaned_is_plain (input : list ascii) :
  forallb is_id_char (cleanPeerId input) = true ->
  forallb is_plain_id_char (cleanPeerId input) = true.
Proof.
  unfold cleanPeerId. induction input as [|c l IH]; [done|].
  simpl. destruct (kept c) eqn:Hkept; [|done]. simpl.
  rewrite !andb_true_iff. intros [Hc Hl].
  split; [by apply valid_cleaned_char_is_plain|by apply IH].
Qed.

(** X16. What the join screen connects to.  Cleaning an input twice is
    cleaning it once; a cleaned input holds no dash; and a cleaned input
    that passes [isValidPeerId] consists of 8 to 64 lowercase letters,
    digits and underscores. *)
Theorem cleaned_identifier (input : list ascii) :
  let cleaned := cleanPeerId input in
  cleanPeerId cleaned = cleaned
  /\ ~ In dash cleaned
  /\ (isValidPeerId cleaned = true ->
      forallb is_plain_id_char cleaned = true
      /\ (8 <= length cleaned <= 64)%nat).
Proof.
  intros cleaned. subst cleaned.
  split; [apply cleanPeerId_twice|]. split; [apply cleanPeerId_no_dash|].
  unfold isValidPeerId. rewrite !andb_true_iff.
  intros [[Hchars Hmin] Hmax].
  split; [by apply valid_cleaned_is_plain|].
  apply Nat.leb_le in Hmin, Hmax. lia.
Qed.

(** X21. What a scan can give.  An identifier [validateScannedPeerId]
    returns passes [isValidPeerId], consists of lowercase letters, digits
    and underscores, holds no dash and is left unchanged by another
    cleaning; scanned data that is itself a valid identifier without dash
    or capital letter is returned as it is. *)
Theorem scanned_identifier (data : list ascii) :
  (forall id,
     validateScannedPeerId data = Some id ->
     isValidPeerId id = true
     /\ forallb is_plain_id_char id = true
     /\ ~ In dash id
     /\ cleanPeerId id = id)
  /\ (isValidPeerId data = true -> forallb clean_char data = true ->
      validateScannedPeerId data = Some data).
Proof.
  split.
  - assert (Hclean : forall l, isValidPeerId (cleanPeerId l) = true ->
      isValidPeerId (cleanPeerId l) = true
      /\ forallb is_plain_id_char (cleanPeerId l) = true
      /\ ~ In dash (cleanPeerId l)
      /\ cleanPeerId (cleanPeerId l) = cleanPeerId l).
    { intros l Hvalid. split; [done|].
      split; [|split; [apply cleanPeerId_no_dash|apply cleanPeerId_twice]].
      apply valid_cleaned_is_plain. unfold isValidPeerId in Hvalid.
      rewrite !andb_true_iff in Hvalid. by destruct Hvalid as [[? _] _]. }
    intros id. unfold validateScannedPeerId.
    destruct (isValidPeerId (cleanPeerId data)) eqn:Hvalid.
    + intros [= <-]. by apply Hclean.
    + destruct (match_id_run data) as [found|]; [|done].
      destruct (isValidPeerId (cleanPeerId found)) eqn:Hfound; [|done].
      intros [= <-]. by apply Hclean.
  - intros Hvalid Hplain. unfold validateScannedPeerId.
    apply cleanPeerId_fixed in Hplain. by rewrite Hplain, Hvalid.
Qed.

End PeerIds.

(** * Properties of the PeerJS transport *)

Section PeerTransportProps.

Context {D P CB : Type} `{!DataConnection D}.

Implicit Types tr : PeerTransport.t D P CB.

Lemma send_not_connected tr (bytes : list byte) :
  PeerTransport.isConnected tr = false \/ PeerTransport.connection tr = None ->
  PeerTransport.send tr bytes = (Throw (Error "Transport not connected"), tr).
Proof.
  unfold PeerTransport.send. intros [Hflag|Hconn].
  - rewrite Hflag. by destruct (PeerTransport.connection tr).
  - by rewrite Hconn.
Qed.

(** X17. A transport that was closed, or whose connection reported [close]
    or [error], is not open and refuses every send with "Transport not
    connected", staying as it is.  After [close] the status is "Closed", a
    second [close] changes nothing, and an [open] event that arrives late
    does not reopen it: there is no connection left to send on. *)
Theorem closed_transport_refuses tr :
  (forall tr',
     tr' = PeerTransport.close tr \/ tr' = PeerTransport.on_close tr
     \/ (exists message, tr' = PeerTransport.on_error message tr)
     \/ tr' = PeerTransport.on_open (PeerTransport.close tr) ->
     PeerTransport.isOpen tr' = false
     /\ forall bytes,
          PeerTransport.send tr' bytes = (Throw (Error "Transport not connected"), tr'))
  /\ PeerTransport.status (PeerTransport.close tr) = "Closed"
  /\ PeerTransport.close (PeerTransport.close tr) = PeerTransport.close tr.
Proof.
  split; [|done].
  intros tr' [-> | [-> | [[message ->] | ->]]];
    (split; [done|intros bytes; apply send_not_connected; simpl; auto]).
Qed.

(** X18. [send] returns normally exactly when the transport is flagged
    connected, holds a connection, and that connection's own [send]
    returns; the connection is then the one that took the bytes.  Whatever
    goes wrong, what is thrown is an [Error] made by the transport, and the
    peer, the callback, the flag and the status message are as before. *)
Theorem send_contract tr (bytes : list byte) :
  ((PeerTransport.send tr bytes).1 = Return () <->
     PeerTransport.isConnected tr = true
     /\ exists conn,
          PeerTransport.connection tr = Some conn
          /\ (conn_send conn bytes).1 = Return ())
  /\ (forall conn,
        PeerTransport.isConnected tr = true ->
        PeerTransport.connection tr = Some conn ->
        PeerTransport.connection (PeerTransport.send tr bytes).2
        = Some (conn_send conn bytes).2)
  /\ (forall e,
        (PeerTransport.send tr bytes).1 = Throw e ->
        e = Error "Transport not connected"
        \/ exists cause,
             e = Error ("Failed to send message: " +:+ Lockstep.error_message cause))
  /\ PeerTransport.peer (PeerTransport.send tr bytes).2 = PeerTransport.peer tr
  /\ PeerTransport.messageCallback (PeerTransport.send tr bytes).2
     = PeerTransport.messageCallback tr
  /\ PeerTransport.isConnected (PeerTransport.send tr bytes).2
     = PeerTransport.isConnected tr
  /\ PeerTransport.statusMessage (PeerTransport.send tr bytes).2
     = PeerTransport.statusMessage tr.
Proof.
  unfold PeerTransport.send.
  destruct (PeerTransport.connection tr) as [conn|] eqn:Hconn;
    [destruct (PeerTransport.isConnected tr) eqn:Hflag|]; simpl.
  - destruct (conn_send conn bytes) as [[[]|cause] conn'] eqn:Hsend; simpl.
    + split; [split; [intros _; split; [done|]; exists conn; by rewrite Hsend|done]|].
      split; [intros c _ [= <-]; by rewrite Hsend|].
      split; [intros e He; discriminate|done].
    + split.
      { split; [done|]. intros (_ & c & [= <-] & Hc). by rewrite Hsend in Hc. }
      split; [intros c _ [= <-]; by rewrite Hsend|].
      split; [|done]. intros e [= <-]. right. by exists cause.
  - split; [split; [done|by intros [? _]]|].
    split; [done|]. split; [|done]. intros e [= <-]. by left.
  - split; [split; [done|by intros (_ & c & ? & _)]|].
    split; [done|]. split; [|done]. intros e [= <-]. by left.
Qed.

Context {C E : Type} `{!CoreAdapter C E}.

(** X19. The engine on a transport that is flagged disconnected or has no
    connection.  [start] refuses with "Transport not connected" and leaves
    the engine alone.  A running engine still takes a local input without
    an error: the input is recorded for the current tick, the failed send
    is written to the console, and nothing else changes. *)
Theorem engine_on_a_dead_transport (s : Lockstep.t C (PeerTransport.t D P CB)) :
  PeerTransport.isConnected (Lockstep.transport s) = false
  \/ PeerTransport.connection (Lockstep.transport s) = None ->
  Lockstep.start s = (Throw (Error "Transport not connected"), s)
  /\ (Lockstep.isRunning s = true ->
      forall axisY btns,
        Lockstep.onLocalInput axisY btns s
        = (Return (),
           Lockstep.set_console
             (cons "Failed to send input: Error: Transport not connected")
             (Lockstep.set_localInputBuffer
                (insert (Lockstep.currentTick s)
                        {| axis_y := axisY; buttons := btns |}) s))).
Proof.
  intros Hdead. split.
  - rewrite start_result.
    replace (isOpen (Lockstep.transport s)) with false; [done|].
    simpl. unfold PeerTransport.isOpen.
    destruct Hdead as [->| ->]; [done|]. by rewrite andb_false_r.
  - intros Hrun axisY btns.
    rewrite (onLocalInput_running s axisY btns Hrun). cbv zeta.
    change (@send _ PeerTransport_transport) with (@PeerTransport.send D P CB _).
    rewrite (send_not_connected _ _ Hdead). simpl.
    by destruct s.
Qed.

End PeerTransportProps.

Lemma tick_lockstep_witness :
  Lockstep.currentTick (Lockstep.tick (fun json => json) demo_ready).2 = 1
  /\ recorded (Lockstep.core (Lockstep.tick (fun json => json) demo_ready).2)
     = [mkInputPair 0 (mkInput 5 1) (mkInput 3 1)].
Proof.
  assert (Hreach : Lockstep.reachable (fun json : string => json) demo_ready).
  { apply Lockstep.reach_onNetMessage, Lockstep.reach_onLocalInput,
      Lockstep.reach_start, Lockstep.reach_new. }
  destruct (tick_lockstep (fun json => json) demo_ready Hreach)
    as (_ & Hadv & _).
  destruct (Hadv (mkInput 5 1) (mkInput 3 1)) as (Hcur & _ & _ & Hcore);
    [reflexivity..|].
  split; [rewrite Hcur|rewrite Hcore]; reflexivity.
Defined.

Lemma catch_up_witness :
  Lockstep.currentTick (Lockstep.ticks (fun json => json) 2 demo_backlog) = 12
  /\ recorded (Lockstep.core (Lockstep.ticks (fun json => json) 2 demo_backlog))
     = [mkInputPair 10 (mkInput 3 0) (mkInput 2 0);
        mkInputPair 11 (mkInput 4 0) (mkInput 1 0)]
  /\ Lockstep.ticks (fun json => json) 5 demo_backlog
     = Lockstep.ticks (fun json => json) 2 demo_backlog.
Proof.
  assert (Hreach : Lockstep.reachable (fun json : string => json) demo_backlog).
  { unfold demo_backlog.
    do 3 apply Lockstep.reach_onNetMessage. apply Lockstep.reach_onLocalInput.
    apply Lockstep.reach_onNetMessage, Lockstep.reach_onLocalInput,
      Lockstep.reach_start, Lockstep.reach_new. }
  assert (Hbacklog : forall k : nat, (k < 2)%nat ->
    is_Some (Lockstep.localInputBuffer demo_backlog !! (10 + Z.of_nat k))
    /\ is_Some (Lockstep.remoteInputBuffer demo_backlog !! (10 + Z.of_nat k))).
  { intros [|[|k]] Hk; [split; vm_compute; eauto..|lia]. }
  assert (Hcursor : Lockstep.currentTick demo_backlog = 10) by (vm_compute; reflexivity).
  destruct (catch_up (fun json => json) demo_backlog 10 2 Hreach Hcursor Hbacklog)
    as [Hfirst Hstall].
  destruct (Hfirst 2%nat) as [Hcur Hcore]; [lia|].
  split; [rewrite Hcur; reflexivity|].
  split; [rewrite Hcore; vm_compute; reflexivity|].
  apply Hstall; [left; vm_compute; reflexivity|lia].
Defined.

Lemma snapshot_restores_and_resyncs_witness :
  Lockstep.currentTick (Lockstep.onNetMessage [x02; x2a] demo_ready).2 = 42
  /\ core_tick (Lockstep.core (Lockstep.onNetMessage [x02; x2a] demo_ready).2) = 42.
Proof.
  destruct (snapshot_restores_and_resyncs demo_ready [x2a] eq_refl)
    as (Hcore & Hcur & _).
  split; [rewrite Hcur|]; rewrite Hcore; reflexivity.
Defined.

Lemma undecodable_message_is_discarded_witness :
  (Lockstep.onNetMessage [x01; x00; x00] demo_ready).1 = Return []
  /\ Lockstep.currentTick (Lockstep.onNetMessage [x01; x00; x00] demo_ready).2
     = Lockstep.currentTick demo_ready
  /\ Lockstep.remoteInputBuffer (Lockstep.onNetMessage [x01; x00; x00] demo_ready).2
     = Lockstep.remoteInputBuffer demo_ready.
Proof.
  assert (Hthrows : throws (WireMsg.decode [x01; x00; x00])).
  { eexists. reflexivity. }
  destruct (undecodable_message_is_discarded demo_ready [x01; x00; x00] eq_refl Hthrows)
    as (Hret & Hcur & _ & Hremote & _).
  done.
Defined.

Lemma own_field_is_ignored_witness :
  Lockstep.onNetMessage
    (WireMsg.encodeInputPair (mkInputPair 0 (mkInput 0 0) (mkInput 3 1)))
    demo_started
  = Lockstep.onNetMessage
      (WireMsg.encodeInputPair (mkInputPair 0 (mkInput 9 1) (mkInput 3 1)))
      demo_started.
Proof.
  apply (own_field_is_ignored demo_started _ _
           (mkInputPair 0 (mkInput 0 0) (mkInput 3 1))
           (mkInputPair 0 (mkInput 9 1) (mkInput 3 1)));
    reflexivity.
Defined.

Lemma stopped_engine_ignores_messages_witness :
  let s := Lockstep.new (mkRecordingCore [] 0) (mkLoopbackTransport true []) 60 Left true in
  Lockstep.onNetMessage (WireMsg.encodePing 7) s = (Return [], s)
  /\ Lockstep.onNetMessage [x02; x2a] (Lockstep.stop demo_ready).2
     = (Return [], (Lockstep.stop demo_ready).2).
Proof.
  destruct (@stopped_engine_ignores_messages RecordingCore Z LoopbackTransport _ _)
    as (Hnew & Hstop & Hignore).
  split; apply Hignore; [apply Hnew|apply Hstop].
Defined.

Lemma onLocalInput_records_and_sends_witness :
  Lockstep.localInputBuffer (Lockstep.onLocalInput 7 0 demo_ready).2 !! 0
  = Some (mkInput 7 0)
  /\ Lockstep.currentTick (Lockstep.onLocalInput 7 0 demo_ready).2 = 0.
Proof.
  destruct (onLocalInput_records_and_sends demo_ready 7 0 eq_refl)
    as (_ & Hlocal & _ & Hcur & _).
  split; [rewrite Hlocal|rewrite Hcur]; reflexivity.
Defined.

(** C5.  The local input for a tick is to be recorded only if absent, an
    entry already there left as it is.  The code does not keep to this: on
    a running engine whose local buffer holds the input (5, 1) for the
    current tick 0, [onLocalInput] with (7, 0) puts (7, 0) in its place, so
    an input is altered after it was submitted (and sent) for the tick. *)
Lemma onLocalInput_overwrites_entry :
  Lockstep.isRunning demo_ready = true
  /\ Lockstep.localInputBuffer demo_ready !! Lockstep.currentTick demo_ready
     = Some (mkInput 5 1)
  /\ Lockstep.localInputBuffer (Lockstep.onLocalInput 7 0 demo_ready).2
       !! Lockstep.currentTick demo_ready
     = Some (mkInput 7 0)
  /\ Lockstep.localInputBuffer (Lockstep.onLocalInput 7 0 demo_ready).2
       !! Lockstep.currentTick demo_ready
     <> Lockstep.localInputBuffer demo_ready !! Lockstep.currentTick demo_ready.
Proof.
  split; [reflexivity|]. split; [reflexivity|]. split; [reflexivity|].
  vm_compute. discriminate.
Qed.

Lemma encode_decode_id_witness :
  WireMsg.encodePing 1 = [x03; x01; x00; x00; x00]
  /\ WireMsg.encodeSnapshot [x07] = [x02; x07].
Proof.
  split.
  - apply (encode_decode_id [x03; x01; x00; x00; x00]). reflexivity.
  - apply (encode_decode_id [x02; x07]). reflexivity.
Defined.

Lemma ping_is_echoed_witness :
  outbox (Lockstep.transport
            (Lockstep.onNetMessage [x03; x07; x00; x00; x00] demo_ready).2)
  = outbox (Lockstep.transport demo_ready) ++ [[x03; x07; x00; x00; x00]].
Proof.
  destruct (ping_is_echoed demo_ready [x03; x07; x00; x00; x00] 7 eq_refl eq_refl)
    as (_ & Htr & _).
  rewrite Htr. reflexivity.
Defined.

Lemma snapshot_push_overwrites_peer_witness :
  core_tick
    (Lockstep.core
       (Lockstep.onNetMessage
          (WireMsg.encodeSnapshot (snapshotBytes (Lockstep.core demo_backlog)))
          demo_ready).2)
  = 10.
Proof.
  assert (HrunA : Lockstep.isRunning demo_backlog = true) by (vm_compute; reflexivity).
  destruct (snapshot_push_overwrites_peer demo_backlog demo_ready HrunA eq_refl)
    as (_ & _ & _ & _ & _ & Hcore & _).
  rewrite Hcore. vm_compute. reflexivity.
Defined.

Lemma start_forgets_the_past_witness :
  Lockstep.currentTick (Lockstep.start demo_backlog).2 = 10
  /\ Lockstep.getBufferInfo (Lockstep.start demo_backlog).2
     = Lockstep.mkBufferInfo 0 0.
Proof.
  assert (Hopen : isOpen (Lockstep.transport demo_backlog) = true)
    by (vm_compute; reflexivity).
  destruct (start_forgets_the_past (fun json : string => json) demo_backlog Hopen)
    as (_ & Hcur & Hinfo & _).
  split; [rewrite Hcur; vm_compute; reflexivity|exact Hinfo].
Defined.

Lemma remote_buffer_holds_wire_values_witness :
  Lockstep.remote_in_wire_range demo_backlog.
Proof.
  assert (Hreach : Lockstep.reachable (fun json : string => json) demo_backlog).
  { unfold demo_backlog.
    do 3 apply Lockstep.reach_onNetMessage. apply Lockstep.reach_onLocalInput.
    apply Lockstep.reach_onNetMessage, Lockstep.reach_onLocalInput,
      Lockstep.reach_start, Lockstep.reach_new. }
  apply (remote_buffer_holds_wire_values (fun json : string => json) demo_backlog Hreach).
Defined.

Lemma peers_step_with_the_same_inputs_witness :
  recorded
    (Lockstep.core
       (Lockstep.tick (fun json => json)
          (Lockstep.onNetMessage
             (WireMsg.encodeInputPair (mkInputPair 0 (mkInput 0 0) (mkInput 3 1)))
             (Lockstep.onLocalInput 5 1 demo_started).2).2).2)
  = [mkInputPair 0 (mkInput 5 1) (mkInput 3 1)]
  /\ recorded
       (Lockstep.core
          (Lockstep.tick (fun json => json)
             (Lockstep.onNetMessage
                (WireMsg.encodeInputPair (mkInputPair 0 (mkInput 5 1) (mkInput 0 0)))
                (Lockstep.onLocalInput 3 1 demo_started_right).2).2).2)
     = [mkInputPair 0 (mkInput 5 1) (mkInput 3 1)].
Proof.
  assert (Hx : fits_wire (mkInput 5 1)) by (unfold fits_wire; simpl; lia).
  assert (Hy : fits_wire (mkInput 3 1)) by (unfold fits_wire; simpl; lia).
  assert (Htk : 0 <= Lockstep.currentTick demo_started < 2 ^ 32) by (simpl; lia).
  destruct (peers_step_with_the_same_inputs (fun json : string => json)
              demo_started demo_started_right (mkInput 5 1) (mkInput 3 1)
              eq_refl eq_refl eq_refl eq_refl eq_refl Htk Hx Hy)
    as (_ & _ & HcoreL & HcoreR & _).
  apply (f_equal recorded) in HcoreL, HcoreR.
  split; [exact HcoreL|exact HcoreR].
Defined.

Lemma tick_reports_the_stepped_tick_witness :
  (Lockstep.tick (fun json => json) demo_ready).1
  = Return {| Lockstep.view := "1"; Lockstep.events := [game_advanced 0 [0]] |}.
Proof.
  destruct (tick_reports_the_stepped_tick (fun json : string => json) demo_ready)
    as [Hstep _].
  rewrite (Hstep (mkInput 5 1) (mkInput 3 1)) by reflexivity.
  reflexivity.
Defined.

Lemma ticks_touch_only_stepped_entries_witness :
  Lockstep.remoteInputBuffer (Lockstep.ticks (fun json => json) 5 demo_backlog) !! 12
  = Some (mkInput 5 0).
Proof.
  destruct (ticks_touch_only_stepped_entries (fun json : string => json) 5 demo_backlog)
    as [_ Hkeep].
  destruct (Hkeep 12) as [_ Hr]; [right; vm_compute; discriminate|].
  rewrite Hr. vm_compute. reflexivity.
Defined.

Lemma simulation_is_left_alone_witness :
  Lockstep.same_simulation demo_ready
    (Lockstep.onNetMessage [x03; x07; x00; x00; x00] demo_ready).2.
Proof.
  destruct (@simulation_is_left_alone _ _ _ _ _ demo_ready) as (_ & _ & _ & Hnet & _).
  apply Hnet. intros payload. discriminate.
Defined.

Lemma waiting_for_remote_is_a_stall_witness :
  Lockstep.ticks (fun json => json) 3 (Lockstep.onLocalInput 5 1 demo_started).2
  = (Lockstep.onLocalInput 5 1 demo_started).2.
Proof.
  destruct (waiting_for_remote_is_a_stall (fun json : string => json)
              (Lockstep.onLocalInput 5 1 demo_started).2) as (_ & Hstall & _).
  apply Hstall. reflexivity.
Defined.

Lemma buffer_counts_witness :
  Lockstep.getBufferInfo (Lockstep.onLocalInput 7 0 demo_ready).2
  = Lockstep.mkBufferInfo 1 1.
Proof.
  destruct (buffer_counts (fun json : string => json) demo_ready eq_refl)
    as (Hlocal & _).
  rewrite Hlocal. reflexivity.
Defined.

Lemma submit_then_drive_witness :
  recorded
    (Lockstep.core
       (Lockstep.tick (fun json => json) (Lockstep.onLocalInput 7 0 demo_ready).2).2)
  = [mkInputPair 0 (mkInput 7 0) (mkInput 3 1)].
Proof.
  destruct (submit_then_drive (fun json : string => json) demo_ready
              (mkInput 7 0) (mkInput 3 1) eq_refl eq_refl)
    as (_ & Hcore & _).
  apply (f_equal recorded) in Hcore. exact Hcore.
Defined.

Lemma format_then_clean_witness :
  PeerIdUtils.cleanPeerId
    (PeerIdUtils.formatPeerId (String.list_ascii_of_string "abcd1234ef"))
  = String.list_ascii_of_string "abcd1234ef".
Proof.
  apply (format_then_clean (String.list_ascii_of_string "abcd1234ef")).
  reflexivity.
Defined.

Lemma cleaned_identifier_witness :
  forallb PeerIdUtils.is_plain_id_char
    (PeerIdUtils.cleanPeerId (String.list_ascii_of_string "AbCd-1234 ef")) = true.
Proof.
  destruct (cleaned_identifier (String.list_ascii_of_string "AbCd-1234 ef"))
    as (_ & _ & Hvalid).
  apply Hvalid. reflexivity.
Defined.

Lemma closed_transport_refuses_witness :
  PeerTransport.isOpen (PeerTransport.on_open (PeerTransport.close demo_transport))
  = false
  /\ PeerTransport.send (PeerTransport.on_close demo_transport) [x01]
     = (Throw (Error "Transport not connected"), PeerTransport.on_close demo_transport).
Proof.
  destruct (closed_transport_refuses demo_transport) as [Hrefuse _].
  split.
  - apply (Hrefuse (PeerTransport.on_open (PeerTransport.close demo_transport))).
    right. right. right. reflexivity.
  - apply (Hrefuse (PeerTransport.on_close demo_transport)).
    right. left. reflexivity.
Defined.

Lemma send_contract_witness :
  (PeerTransport.send demo_transport [x01]).1 = Return ()
  /\ PeerTransport.connection (PeerTransport.send demo_transport [x01]).2
     = Some (mkLoopbackConnection true [[x01]]).
Proof.
  destruct (send_contract demo_transport [x01]) as (Hret & Hconn & _).
  split.
  - apply Hret. split; [reflexivity|].
    exists (mkLoopbackConnection true []). split; reflexivity.
  - apply (Hconn (mkLoopbackConnection true [])); reflexivity.
Defined.

Lemma engine_on_a_dead_transport_witness :
  Lockstep.start demo_cut_off
  = (Throw (Error "Transport not connected"), demo_cut_off)
  /\ (Lockstep.onLocalInput 5 1 demo_cut_off).1 = Return ().
Proof.
  assert (Hdead : PeerTransport.isConnected (Lockstep.transport demo_cut_off) = false
                  \/ PeerTransport.connection (Lockstep.transport demo_cut_off) = None).
  { left. reflexivity. }
  destruct (engine_on_a_dead_transport demo_cut_off Hdead) as [Hstart Hinput].
  split; [exact Hstart|]. by rewrite (Hinput eq_refl 5 1).
Defined.

Lemma resubmission_is_stepped_locally_only_witness :
  recorded
    (Lockstep.core
       (Lockstep.tick (fun json => json)
          (Lockstep.onNetMessage
             (WireMsg.encodeInputPair (mkInputPair 0 (mkInput 5 1) (mkInput 0 0)))
             (Lockstep.onLocalInput 3 1 demo_started_right).2).2).2)
  = [mkInputPair 0 (mkInput 5 1) (mkInput 3 1)]
  /\ recorded
       (Lockstep.core
          (Lockstep.tick (fun json => json)
             (Lockstep.onNetMessage
                (WireMsg.encodeInputPair (mkInputPair 0 (mkInput 0 0) (mkInput 3 1)))
                (Lockstep.onLocalInput (-9) 0
                   (Lockstep.onLocalInput 5 1 demo_started).2).2).2).2)
     = [mkInputPair 0 (mkInput (-9) 0) (mkInput 3 1)].
Proof.
  assert (Hx1 : fits_wire (mkInput 5 1)) by (unfold fits_wire; simpl; lia).
  assert (Hx2 : fits_wire (mkInput (-9) 0)) by (unfold fits_wire; simpl; lia).
  assert (Hy : fits_wire (mkInput 3 1)) by (unfold fits_wire; simpl; lia).
  assert (Htk : 0 <= Lockstep.currentTick demo_started < 2 ^ 32) by (simpl; lia).
  destruct (resubmission_is_stepped_locally_only (fun json : string => json)
              demo_started demo_started_right
              (mkInput 5 1) (mkInput (-9) 0) (mkInput 3 1)
              eq_refl eq_refl eq_refl eq_refl eq_refl Htk Hx1 Hx2 Hy)
    as (_ & HcoreR & HcoreL & _).
  apply (f_equal recorded) in HcoreL, HcoreR.
  split; [exact HcoreR|exact HcoreL].
Defined.

Lemma scanned_identifier_witness :
  PeerIdUtils.validateScannedPeerId (String.list_ascii_of_string "abcd_1234")
  = Some (String.list_ascii_of_string "abcd_1234")
  /\ PeerIdUtils.isValidPeerId (String.list_ascii_of_string "peer4242") = true.
Proof.
  split.
  - apply (scanned_identifier (String.list_ascii_of_string "abcd_1234"));
      reflexivity.
  - destruct (scanned_identifier
                (String.list_ascii_of_string "https://x.example/?id=Peer-4242"))
      as [Hsome _].
    apply (Hsome (String.list_ascii_of_string "peer4242")). reflexivity.
Defined.
